(** * rustlings-journey: the progress reporter [scripts/progress.py]

    A shallow embedding of the reporter and the proofs of its specified
    properties.

    Conventions of the embedding.
    - A Python [str] is the list of its Unicode code points ([str := list N]):
      [str.splitlines], [str.strip] and the slug pattern are defined by code
      point tables, which an 8-bit character type cannot hold.
    - A Python [int] is a [Z]; [len] of a set is [Z.of_nat (size _)].
    - A [set] of strings is a [gset str], the catalog [dict] a
      [gmap str (gset str)].
    - A file is [option str]: [None] when the path does not exist, otherwise
      the decoded text stored in it. *)

From Stdlib Require Import ZArith Lia List Ascii String DecimalString DecimalZ.
From Stdlib Require Import Uint63 PrimFloat FloatOps SpecFloat.
From stdpp Require Import gmap list sorting.

Set Warnings "-register-all,-clear-no-such-hyp".

Local Open Scope Z_scope.

(** ** Strings *)

Abbreviation str := (list N).

(** [lit] embeds an ASCII literal of the source. *)
Definition lit (s : string) : str := map N_of_ascii (list_ascii_of_string s).

(** [str(n)] of a Python integer, as the f-strings of the source apply it. *)
Definition py_str_int (n : Z) : str := lit (NilZero.string_of_int (Z.to_int n)).

(** [m] is a prefix of [s] ([s.startswith(m)]). *)
Fixpoint startswith (m s : str) : bool :=
  match m, s with
  | [], _ => true
  | _ :: _, [] => false
  | a :: m', b :: s' => if N.eqb a b then startswith m' s' else false
  end.

(** [s.find(m)]: the index of the leftmost occurrence of [m] in [s]. *)
Fixpoint find (m s : str) : option nat :=
  if startswith m s then Some 0%nat
  else match s with
       | [] => None
       | _ :: t => S <$> find m t
       end.

(** [m in s] on strings. *)
Definition contains (m s : str) : bool := bool_decide (is_Some (find m s)).

(** [s.endswith(m)] and [s.removesuffix(m)]. *)
Definition endswith (m s : str) : bool :=
  startswith (rev m) (rev s).

Definition removesuffix (m s : str) : str :=
  if endswith m s then take (length s - length m)%nat s else s.

(** ** Rounding and [percent] *)

(** Python's [round(x)] on the quotient [p / q]: the nearest integer, a tie
    going to the even neighbour.  The source computes the quotient in binary
    floating point, [(n * 100.0) / d].  For [0 <= n], [n * 100 < 2^52] and
    [0 < d < 2^53] the two conversions and the product are exact, and the
    correctly rounded quotient lies on the same side of every half-integer
    as the exact one (a quotient [m / d] that is not a half-integer is at
    least [1 / (2 * d)] away from one, more than half a unit in the last
    place while [m < 2^52]): there [round] of it is [round] of the exact
    quotient, which is what is computed here.  Beyond that range the float
    quotient can round to the other side (see [percent_f64] below and
    [percent_f64_beyond_range]); the statements that depend on the exact
    value carry the range as a hypothesis. *)
Definition py_round_div (p q : Z) : Z :=
  let '(p, q) := if q <? 0 then (- p, - q) else (p, q) in
  let f := p / q in
  let r := p mod q in
  if 2 * r <? q then f
  else if q <? 2 * r then f + 1
  else if Z.even f then f else f + 1.

(** [percent(n, d)] *)
Definition percent (n d : Z) : Z :=
  if d =? 0 then 0 else py_round_div (n * 100) d.

(** The same function on binary64 numbers, operation by operation as the
    source has it: [n * 100.0], the division by [d], and [round] of the
    quotient read off its mantissa and exponent.  The integers are taken
    below [2^53], where their conversion to a float is exact; [None] stands
    for what lies outside. *)
Definition float_of_int (n : Z) : option float :=
  if Z.abs n <? 2 ^ 53 then
    let m := PrimFloat.of_uint63 (Uint63.of_Z (Z.abs n)) in
    Some (if n <? 0 then PrimFloat.opp m else m)
  else None.

Definition round_float (x : float) : option Z :=
  match Prim2SF x with
  | S754_zero _ => Some 0
  | S754_finite sign m e =>
      let v := if sign then Z.neg m else Z.pos m in
      Some (if 0 <=? e then v * 2 ^ e else py_round_div v (2 ^ (- e)))
  | _ => None
  end.

Definition percent_f64 (n d : Z) : option Z :=
  if d =? 0 then Some 0
  else
    match float_of_int n, float_of_int 100, float_of_int d with
    | Some fn, Some f100, Some fd =>
        round_float (PrimFloat.div (PrimFloat.mul fn f100) fd)
    | _, _, _ => None
    end.

(** ** Files *)

(** [Path.read_text] opens the file in text mode: a carriage return, alone or
    followed by a line feed, reaches the program as one line feed. *)
Fixpoint universal_newlines (s : str) : str :=
  match s with
  | [] => []
  | c :: t =>
      if N.eqb c 13 then
        10%N :: match t with
                | [] => []
                | c' :: t' =>
                    if N.eqb c' 10 then universal_newlines t'
                    else universal_newlines t
                end
      else c :: universal_newlines t
  end.

Definition read_text (stored : str) : str := universal_newlines stored.

(** [Path.write_text] on a platform whose line separator is the line feed. *)
Definition write_text (content : str) : str := content.

(** ** State reader *)

(** The line boundaries of [str.splitlines]. *)
Definition is_linebreak (c : N) : bool :=
  (10 <=? c)%N && (c <=? 13)%N || (28 <=? c)%N && (c <=? 30)%N
  || N.eqb c 133 || N.eqb c 8232 || N.eqb c 8233.

(** [splitlines_go after_cr cur s]: [cur] is the current line, reversed;
    [after_cr] says that the boundary just closed was a carriage return, which
    a line feed directly after it belongs to. *)
Fixpoint splitlines_go (after_cr : bool) (cur s : str) : list str :=
  match s with
  | [] => match cur with [] => [] | _ => [rev cur] end
  | c :: t =>
      if after_cr && N.eqb c 10 then splitlines_go false cur t
      else if is_linebreak c then rev cur :: splitlines_go (N.eqb c 13) [] t
      else splitlines_go false (c :: cur) t
  end.

Definition splitlines (s : str) : list str := splitlines_go false [] s.

(** The characters [str.strip] removes ([str.isspace]). *)
Definition is_space (c : N) : bool :=
  (9 <=? c)%N && (c <=? 13)%N || (28 <=? c)%N && (c <=? 32)%N
  || N.eqb c 133 || N.eqb c 160 || N.eqb c 5760
  || (8192 <=? c)%N && (c <=? 8202)%N
  || N.eqb c 8232 || N.eqb c 8233 || N.eqb c 8239 || N.eqb c 8287
  || N.eqb c 12288.

Fixpoint lstrip (s : str) : str :=
  match s with
  | [] => []
  | c :: t => if is_space c then lstrip t else s
  end.

Definition strip (s : str) : str := rev (lstrip (rev (lstrip s))).

(** The character class of [_slug_re], [[A-Za-z0-9_\-\.]]. *)
Definition is_slug_char (c : N) : bool :=
  (65 <=? c)%N && (c <=? 90)%N || (97 <=? c)%N && (c <=? 122)%N
  || (48 <=? c)%N && (c <=? 57)%N
  || N.eqb c 95 || N.eqb c 45 || N.eqb c 46.

Fixpoint leading_run (p : N -> bool) (s : str) : str :=
  match s with
  | [] => []
  | c :: t => if p c then c :: leading_run p t else []
  end.

(** [_slug_re.match(line)], giving [m.group(1)]. *)
Definition slug_re_match (line : str) : option str :=
  match leading_run is_slug_char line with
  | [] => None
  | g => Some g
  end.

(** The body of the loop of [read_completed_slugs]. *)
Definition read_line (done : gset str) (line : str) : gset str :=
  let line := strip line in
  match line with
  | [] => done
  | _ =>
      match slug_re_match line with
      | None => done
      | Some g => done ∪ {[ removesuffix (lit ".rs") g ]}
      end
  end.

Definition read_completed_slugs (state_file : option str) : gset str :=
  match state_file with
  | None => ∅
  | Some stored => foldl read_line ∅ (splitlines (read_text stored))
  end.

(** ** Exercise scanner *)

(** The tree below [EXER_DIR]. *)
Inductive entry : Type :=
  | File (name : str)
  | Dir (name : str) (children : list entry).

(** A path is the list of its [parts]; the second component is [is_file()]. *)
Definition path : Type := list str * bool.

(** [rglob("*")] below the directory whose parts are [parent]: every entry of
    the tree, directories included.  The order in which a directory is listed
    is the platform's; the catalog, a map of sets, does not depend on it. *)
Fixpoint rglob (parent : list str) (e : entry) : list path :=
  match e with
  | File n => [(parent ++ [n], true)]
  | Dir n cs => (parent ++ [n], false) :: flat_map (rglob (parent ++ [n])) cs
  end.

Definition EXCLUDE_DIRS : gset str := {[ lit "answers"; lit ".git"; lit "target" ]}.
Definition VALID_EXTS : gset str := {[ lit ".rs" ]}.

(** [PurePath.name] and [PurePath.parent] on the parts. *)
Definition name (parts : list str) : str := List.last parts [].
Definition parent (parts : list str) : list str := removelast parts.

(** [str.rfind]. *)
Fixpoint index_of (c : N) (s : str) : option nat :=
  match s with
  | [] => None
  | x :: t => if N.eqb x c then Some 0%nat else S <$> index_of c t
  end.

Definition rfind (c : N) (s : str) : option nat :=
  (fun j => (length s - 1 - j)%nat) <$> index_of c (rev s).

(** [PurePath.suffix] and [PurePath.stem] (pathlib of Python 3.9 to 3.13):
    the name is cut at its last dot unless that dot is its first or its last
    character. *)
Definition cut_at_dot (nm : str) : option nat :=
  match rfind 46 nm with
  | Some i => if (0 <? i)%nat && (i <? length nm - 1)%nat then Some i else None
  | None => None
  end.

Definition suffix (nm : str) : str :=
  match cut_at_dot nm with Some i => drop i nm | None => [] end.

Definition stem (nm : str) : str :=
  match cut_at_dot nm with Some i => take i nm | None => nm end.

(** [any(part in EXCLUDE_DIRS for part in path.parts)] *)
Definition excluded (parts : list str) : bool :=
  existsb (fun part => bool_decide (part ∈ EXCLUDE_DIRS)) parts.

(** [all_slugs.setdefault(topic, set()).add(slug)] *)
Definition add_slug (topic slug : str) (all_slugs : gmap str (gset str))
  : gmap str (gset str) :=
  <[topic := default ∅ (all_slugs !! topic) ∪ {[ slug ]}]> all_slugs.

(** A path is counted when no part is excluded, it is a regular file and its
    suffix is valid. *)
Definition counted (p : path) : bool :=
  negb (excluded p.1) && p.2 && bool_decide (suffix (name p.1) ∈ VALID_EXTS).

(** The body of the loop of [find_all_exercises]. *)
Definition scan_step (all_slugs : gmap str (gset str)) (p : path)
  : gmap str (gset str) :=
  if excluded p.1 then all_slugs
  else if p.2 && bool_decide (suffix (name p.1) ∈ VALID_EXTS)
       then add_slug (name (parent p.1)) (stem (name p.1)) all_slugs
       else all_slugs.

(** [root] is [ROOT.parts]; [exer_dir] is [None] when [EXER_DIR] does not
    exist and otherwise lists what the directory holds. *)
Definition EXER_DIR (root : list str) : list str := root ++ [lit "exercises"].

Definition scan (root : list str) (tree : list entry) : list path :=
  flat_map (rglob (EXER_DIR root)) tree.

Definition find_all_exercises (root : list str) (exer_dir : option (list entry))
  : gmap str (gset str) :=
  match exer_dir with
  | None => ∅
  | Some tree => foldl scan_step ∅ (scan root tree)
  end.

(** ** Aggregator *)

(** One [{"done": _, "total": _, "pct": _}] dictionary. *)
Record stats : Type := Stats { done : Z; total : Z; pct : Z }.

(** What [json.dumps] is given: [{"summary": _, "topics": _}]. *)
Record report : Type := Report { summary : stats; topics : gmap str stats }.

Definition py_len (v : gset str) : Z := Z.of_nat (size v).

(** [sum(...)]: the additions start from [0], left to right. *)
Definition py_sum (l : list Z) : Z := foldl Z.add 0 l.

(** [topics.values()] and [topics.items()] *)
Definition values (m : gmap str (gset str)) : list (gset str) := (map_to_list m).*2.
Definition items (m : gmap str (gset str)) : list (str * gset str) := map_to_list m.

(** The body of the loop over [topics.items()] in [main]. *)
Definition topic_entry (completed : gset str) (per_topic : gmap str stats)
    (item : str * gset str) : gmap str stats :=
  let '(t, slugs) := item in
  let d := py_len (slugs ∩ completed) in
  <[t := Stats d (py_len slugs) (percent d (py_len slugs))]> per_topic.

(** The computation of [main] between the two readers and the writers. *)
Definition aggregate (completed : gset str) (catalog : gmap str (gset str)) : report :=
  let total := py_sum (py_len <$> values catalog) in
  let done := py_sum ((fun v => py_len (v ∩ completed)) <$> values catalog) in
  let pct := percent done total in
  let per_topic := foldl (topic_entry completed) ∅ (items catalog) in
  Report (Stats done total pct) per_topic.

(** ** README patcher *)

Definition LF : N := 10.

Definition marker : str := lit "<!-- RUSTLINGS_PROGRESS -->".
Definition end_marker : str := lit "<!-- /RUSTLINGS_PROGRESS -->".

(** The pattern [marker .*? end_marker] (with [re.S], so that the dot takes
    every character) tried at the head of [s]: the length of the text it
    takes, which ends with the first end marker after the begin marker. *)
Definition block_match (s : str) : option nat :=
  if startswith marker s then
    (fun i => (length marker + i + length end_marker)%nat)
      <$> find end_marker (drop (length marker) s)
  else None.

(** [re.sub(pattern, repl, s)] for that pattern and a [repl] without
    backslash: left to right, every match is replaced and the search resumes
    behind it.  [skip] counts the characters of the last match still to pass. *)
Fixpoint re_sub_go (repl : str) (skip : nat) (s : str) : str :=
  match s with
  | [] => []
  | c :: t =>
      match skip with
      | S k => re_sub_go repl k t
      | O =>
          match block_match s with
          | Some n => repl ++ re_sub_go repl (n - 1) t
          | None => c :: re_sub_go repl 0 t
          end
      end
  end.

Definition re_sub (repl s : str) : str := re_sub_go repl 0 s.

(** The f-string [line] of [patch_readme]. *)
Definition readme_line (summary : stats) : str :=
  lit "![Rustlings Progress](docs/badge.svg)  " ++ [LF] ++ lit "**"
  ++ py_str_int (done summary) ++ lit " / " ++ py_str_int (total summary)
  ++ lit " completed (" ++ py_str_int (pct summary) ++ lit "%)**".

(** The replacement [f"{marker}\n{line}\n<!-- /RUSTLINGS_PROGRESS -->"]. *)
Definition block (summary : stats) : str :=
  marker ++ [LF] ++ readme_line summary ++ [LF] ++ end_marker.

(** What [patch_readme] does to the text it has read. *)
Definition patch_content (summary : stats) (content : str) : str :=
  if contains marker content then re_sub (block summary) content
  else content ++ [LF; LF] ++ block summary ++ [LF].

(** [patch_readme(summary)] on the README file: [None] is the absent file,
    which is left absent. *)
Definition patch_readme (summary : stats) (readme : option str) : option str :=
  match readme with
  | None => None
  | Some stored => Some (write_text (patch_content summary (read_text stored)))
  end.

(** ** Entry point *)

(** The files the program reads. *)
Record world : Type := World {
  state_file : option str;
  exer_dir : option (list entry);
  readme : option str
}.

(** [main(update_files)]: the JSON object printed and the README afterwards.
    The badge and the markdown report are written and never read back; they
    are left out of the state. *)
Definition main (update_files : bool) (root : list str) (w : world)
  : report * option str :=
  let completed := read_completed_slugs (state_file w) in
  let catalog := find_all_exercises root (exer_dir w) in
  let r := aggregate completed catalog in
  (r, if update_files then patch_readme (summary r) (readme w) else readme w).

(** ** Markdown report *)

(** [sep.join(lines)] *)
Fixpoint join (sep : str) (lines : list str) : str :=
  match lines with
  | [] => []
  | l :: ls => match ls with [] => l | _ :: _ => l ++ sep ++ join sep ls end
  end.

(** The order of Python strings: by code point at the first difference, a
    proper prefix before what extends it. *)
Fixpoint str_le (a b : str) : bool :=
  match a, b with
  | [], _ => true
  | _ :: _, [] => false
  | x :: a', y :: b' =>
      if N.ltb x y then true else if N.eqb x y then str_le a' b' else false
  end.

(** The order of the tuples [(topic, stats)]: the topics decide; they are
    the keys of a dictionary, no two are equal, and the comparison never
    reaches the second component. *)
Definition item_le (a b : str * stats) : Prop := str_le a.1 b.1 = true.

#[global] Instance item_le_dec (a b : str * stats) : Decision (item_le a b).
Proof. unfold item_le. apply _. Defined.

(** [sorted(per_topic.items())] *)
Definition sorted_items (per_topic : gmap str stats) : list (str * stats) :=
  merge_sort item_le (map_to_list per_topic).

(** The eight lines [lines] starts with. *)
Definition md_header (summary : stats) : list str :=
  [ lit "# Rustlings Progress";
    [];
    lit "- **Completed:** " ++ py_str_int (done summary) ++ lit " / "
      ++ py_str_int (total summary) ++ lit " (" ++ py_str_int (pct summary)
      ++ lit "%)";
    [];
    lit "## By Topic";
    [];
    lit "| Topic | Done | Total | % |";
    lit "|---|---:|---:|---:|" ].

(** The line appended for one topic. *)
Definition md_row (item : str * stats) : str :=
  lit "| " ++ item.1 ++ lit " | " ++ py_str_int (done item.2) ++ lit " | "
  ++ py_str_int (total item.2) ++ lit " | " ++ py_str_int (pct item.2)
  ++ lit "% |".

(** [write_progress_md(summary, per_topic)]: the text written to
    [PROGRESS_MD]. *)
Definition write_progress_md (summary : stats) (per_topic : gmap str stats) : str :=
  let lines := md_header summary ++ (md_row <$> sorted_items per_topic) ++ [[]] in
  join [LF] lines.

(** ** Badge *)

Definition DQ : N := 34.

(** [f"{x:.1f}"] for a number of halves, [twice / 2]: such a float is exact
    and is printed with its one decimal, [0] or [5]. *)
Definition fmt_1f_halves (twice : Z) : str :=
  py_str_int (twice / 2) ++ lit "." ++ (if Z.even twice then lit "0" else lit "5").

(** [make_badge_svg(pct)] *)
Definition make_badge_svg (pct : Z) : str :=
  let label := lit "rustlings" in
  let msg := py_str_int pct ++ lit "%" in
  let lw := 70 in
  let mw := 48 in
  let w := lw + mw in
  lit "<svg xmlns=" ++ [DQ] ++ lit "http://www.w3.org/2000/svg" ++ [DQ]
     ++ lit " width=" ++ [DQ] ++ py_str_int w ++ [DQ] ++ lit " height=" ++ [DQ]
     ++ lit "20" ++ [DQ] ++ lit " role=" ++ [DQ] ++ lit "img" ++ [DQ]
     ++ lit " aria-label=" ++ [DQ] ++ label ++ lit ": " ++ msg ++ [DQ] ++ lit ">"
     ++ [LF]
  ++ lit "  <linearGradient id=" ++ [DQ] ++ lit "b" ++ [DQ] ++ lit " x2=" ++ [DQ]
     ++ lit "0" ++ [DQ] ++ lit " y2=" ++ [DQ] ++ lit "100%" ++ [DQ] ++ lit ">" ++ [LF]
  ++ lit "    <stop offset=" ++ [DQ] ++ lit "0" ++ [DQ] ++ lit " stop-color=" ++ [DQ]
     ++ lit "#fff" ++ [DQ] ++ lit " stop-opacity=" ++ [DQ] ++ lit ".7" ++ [DQ]
     ++ lit "/>" ++ [LF]
  ++ lit "    <stop offset=" ++ [DQ] ++ lit ".1" ++ [DQ] ++ lit " stop-opacity="
     ++ [DQ] ++ lit ".1" ++ [DQ] ++ lit "/>" ++ [LF]
  ++ lit "    <stop offset=" ++ [DQ] ++ lit ".9" ++ [DQ] ++ lit " stop-opacity="
     ++ [DQ] ++ lit ".3" ++ [DQ] ++ lit "/>" ++ [LF]
  ++ lit "    <stop offset=" ++ [DQ] ++ lit "1" ++ [DQ] ++ lit " stop-opacity="
     ++ [DQ] ++ lit ".5" ++ [DQ] ++ lit "/>" ++ [LF]
  ++ lit "  </linearGradient>" ++ [LF]
  ++ lit "  <mask id=" ++ [DQ] ++ lit "a" ++ [DQ] ++ lit "><rect width=" ++ [DQ]
     ++ py_str_int w ++ [DQ] ++ lit " height=" ++ [DQ] ++ lit "20" ++ [DQ]
     ++ lit " rx=" ++ [DQ] ++ lit "3" ++ [DQ] ++ lit " fill=" ++ [DQ] ++ lit "#fff"
     ++ [DQ] ++ lit "/></mask>" ++ [LF]
  ++ lit "  <g mask=" ++ [DQ] ++ lit "url(#a)" ++ [DQ] ++ lit ">" ++ [LF]
  ++ lit "    <rect width=" ++ [DQ] ++ py_str_int lw ++ [DQ] ++ lit " height=" ++ [DQ]
     ++ lit "20" ++ [DQ] ++ lit " fill=" ++ [DQ] ++ lit "#555" ++ [DQ] ++ lit "/>"
     ++ [LF]
  ++ lit "    <rect x=" ++ [DQ] ++ py_str_int lw ++ [DQ] ++ lit " width=" ++ [DQ]
     ++ py_str_int mw ++ [DQ] ++ lit " height=" ++ [DQ] ++ lit "20" ++ [DQ]
     ++ lit " fill=" ++ [DQ] ++ lit "#4c1" ++ [DQ] ++ lit "/>" ++ [LF]
  ++ lit "    <rect width=" ++ [DQ] ++ py_str_int w ++ [DQ] ++ lit " height=" ++ [DQ]
     ++ lit "20" ++ [DQ] ++ lit " fill=" ++ [DQ] ++ lit "url(#b)" ++ [DQ] ++ lit "/>"
     ++ [LF]
  ++ lit "  </g>" ++ [LF]
  ++ lit "  <g fill=" ++ [DQ] ++ lit "#fff" ++ [DQ] ++ lit " text-anchor=" ++ [DQ]
     ++ lit "middle" ++ [DQ] ++ lit " font-family=" ++ [DQ]
     ++ lit "DejaVu Sans,Verdana,Geneva,sans-serif" ++ [DQ] ++ lit " font-size="
     ++ [DQ] ++ lit "11" ++ [DQ] ++ lit ">" ++ [LF]
  ++ lit "    <text x=" ++ [DQ] ++ fmt_1f_halves lw ++ [DQ] ++ lit " y=" ++ [DQ]
     ++ lit "15" ++ [DQ] ++ lit " fill=" ++ [DQ] ++ lit "#010101" ++ [DQ]
     ++ lit " fill-opacity=" ++ [DQ] ++ lit ".3" ++ [DQ] ++ lit ">" ++ label
     ++ lit "</text>" ++ [LF]
  ++ lit "    <text x=" ++ [DQ] ++ fmt_1f_halves lw ++ [DQ] ++ lit " y=" ++ [DQ]
     ++ lit "14" ++ [DQ] ++ lit ">" ++ label ++ lit "</text>" ++ [LF]
  ++ lit "    <text x=" ++ [DQ] ++ fmt_1f_halves (2 * lw + mw) ++ [DQ] ++ lit " y="
     ++ [DQ] ++ lit "15" ++ [DQ] ++ lit " fill=" ++ [DQ] ++ lit "#010101" ++ [DQ]
     ++ lit " fill-opacity=" ++ [DQ] ++ lit ".3" ++ [DQ] ++ lit ">" ++ msg
     ++ lit "</text>" ++ [LF]
  ++ lit "    <text x=" ++ [DQ] ++ fmt_1f_halves (2 * lw + mw) ++ [DQ] ++ lit " y="
     ++ [DQ] ++ lit "14" ++ [DQ] ++ lit ">" ++ msg ++ lit "</text>" ++ [LF]
  ++ lit "  </g>" ++ [LF]
  ++ lit "</svg>".

(** * Notions used by the statements *)

(** "Standard rounding" as the specification words it: the nearest integer,
    a half going up. *)
Definition round_half_up (p q : Z) : Z := (2 * p + q) / (2 * q).

(** The statistics the loop of [main] stores for one topic. *)
Definition topic_stats (completed slugs : gset str) : stats :=
  Stats (py_len (slugs ∩ completed)) (py_len slugs)
        (percent (py_len (slugs ∩ completed)) (py_len slugs)).

(** The other computation the specification names: the union of all topic
    sets, intersected with the completed set. *)
Definition global_done (completed : gset str) (catalog : gmap str (gset str)) : Z :=
  py_len (⋃ values catalog ∩ completed).

(** The sets of any two different topics have no identifier in common. *)
Definition pairwise_disjoint (catalog : gmap str (gset str)) : Prop :=
  map_Forall (fun t1 v1 =>
    map_Forall (fun t2 v2 => t1 <> t2 -> v1 ## v2) catalog) catalog.

(** The scenario of the specification: the state file, the exercise tree,
    and a place for the repository. *)
Definition scenario_state : str :=
  lit "variables1.rs" ++ [LF] ++ lit "move_semantics2 (extra text)".

Definition scenario_tree : list entry :=
  [Dir (lit "variables") [File (lit "variables1.rs"); File (lit "variables2.rs")];
   Dir (lit "move_semantics") [File (lit "move_semantics2.rs")]].

Definition scenario_root : list str :=
  [lit "/"; lit "home"; lit "learner"; lit "rustlings-journey"].

(** The characters [<] and carriage return. *)
Definition LT : N := 60.
Definition CR : N := 13.

(** A block: the two markers around [mid]. *)
Definition wrap (mid : str) : str := marker ++ mid ++ end_marker.

(** What stands between the markers of the rendered block. *)
Definition block_inside (summary : stats) : str :=
  [LF] ++ readme_line summary ++ [LF].

(** The characters of a printed integer, and those that are neither [<] nor
    a carriage return. *)
Definition number_char (c : N) : Prop := c = 45%N \/ (48 <= c <= 57)%N.
Definition plain (c : N) : Prop := c <> LT /\ c <> CR.

(** [t] is a topic of [m] and [x] one of its identifiers. *)
Definition has_slug (m : gmap str (gset str)) (t x : str) : Prop :=
  exists slugs, m !! t = Some slugs /\ x ∈ slugs.

(** [str.rstrip], the second half of [strip]. *)
Definition rstrip (s : str) : str := rev (lstrip (rev s)).

(** No character of the line closes a line. *)
Definition one_line (s : str) : Prop := Forall (fun c => is_linebreak c = false) s.

(** * Properties *)

(** ** The definitions on small inputs *)

Example percent_ties :
  percent 1 8 = 12 /\ percent 3 8 = 38 /\ percent 1 200 = 0 /\ percent 3 200 = 2.
Proof. repeat split. Qed.

Example percent_f64_ties :
  percent_f64 1 8 = Some 12 /\ percent_f64 3 8 = Some 38 /\ percent_f64 2 3 = Some 67.
Proof. repeat split; vm_compute; reflexivity. Qed.

Example py_str_int_examples :
  py_str_int 0 = lit "0" /\ py_str_int 67 = lit "67" /\ py_str_int (-12) = lit "-12".
Proof. repeat split. Qed.

Example splitlines_example :
  splitlines (lit "ab" ++ [13; 10] ++ lit "cd" ++ [10; 10] ++ lit "e" ++ [10])%N
  = [lit "ab"; lit "cd"; []; lit "e"].
Proof. reflexivity. Qed.

Example strip_example : strip (lit "  a b	 ") = lit "a b".
Proof. reflexivity. Qed.

Example removesuffix_examples :
  removesuffix (lit ".rs") (lit "variables1.rs") = lit "variables1"
  /\ removesuffix (lit ".rs") (lit "move_semantics2") = lit "move_semantics2"
  /\ removesuffix (lit ".rs") (lit ".rs") = [].
Proof. repeat split. Qed.

Example suffix_stem_examples :
  suffix (lit "variables1.rs") = lit ".rs" /\ stem (lit "variables1.rs") = lit "variables1"
  /\ suffix (lit ".rs") = [] /\ stem (lit ".rs") = lit ".rs"
  /\ suffix (lit "quiz.") = [] /\ stem (lit "a.b.rs") = lit "a.b".
Proof. repeat split. Qed.

Example read_completed_slugs_example :
  read_completed_slugs
    (Some (lit "variables1.rs" ++ [LF] ++ [LF] ++ lit "  move_semantics2 (extra text)"
           ++ [LF] ++ lit "(no slug here)" ++ [LF] ++ lit "variables1"))
  = {[ lit "variables1"; lit "move_semantics2" ]}.
Proof. vm_compute. reflexivity. Qed.

Example patch_content_two_blocks :
  patch_content (Stats 2 3 67)
    (lit "x" ++ marker ++ lit "old" ++ end_marker ++ lit "y" ++ marker ++ end_marker)
  = lit "x" ++ block (Stats 2 3 67) ++ lit "y" ++ block (Stats 2 3 67).
Proof. vm_compute. reflexivity. Qed.

Example readme_line_example :
  readme_line (Stats 2 3 67)
  = lit "![Rustlings Progress](docs/badge.svg)  " ++ [LF]
    ++ lit "**2 / 3 completed (67%)**".
Proof. vm_compute. reflexivity. Qed.

(** ** Rounding *)

Section Rounding.

Lemma py_round_div_pos (p q : Z) :
  0 < q ->
  py_round_div p q =
    if 2 * (p mod q) <? q then p / q
    else if q <? 2 * (p mod q) then p / q + 1
    else if Z.even (p / q) then p / q else p / q + 1.
Proof.
  intros Hq. unfold py_round_div.
  destruct (q <? 0) eqn:E; [lia | reflexivity].
Qed.

(** The result is a nearest integer of the quotient. *)
Lemma py_round_div_nearest (p q : Z) :
  0 < q -> 2 * Z.abs (p - py_round_div p q * q) <= q.
Proof.
  intros Hq. rewrite py_round_div_pos by assumption.
  pose proof (Z.div_mod p q ltac:(lia)) as Hdm.
  pose proof (Z.mod_pos_bound p q Hq) as Hb.
  repeat case_match; nia.
Qed.

(** On a tie the result is even. *)
Lemma py_round_div_tie_even (p q : Z) :
  0 < q ->
  2 * Z.abs (p - py_round_div p q * q) = q ->
  Z.even (py_round_div p q) = true.
Proof.
  intros Hq. rewrite py_round_div_pos by assumption.
  pose proof (Z.div_mod p q ltac:(lia)) as Hdm.
  pose proof (Z.mod_pos_bound p q Hq) as Hb.
  destruct (2 * (p mod q) <? q) eqn:E1; [nia |].
  destruct (q <? 2 * (p mod q)) eqn:E2; [nia |].
  intros _. destruct (Z.even (p / q)) eqn:E3; [assumption |].
  rewrite Z.even_add, E3. reflexivity.
Qed.

Lemma py_round_div_bounds (p q lo hi : Z) :
  0 < q -> lo * q <= p <= hi * q -> lo <= py_round_div p q <= hi.
Proof.
  intros Hq Hp.
  pose proof (py_round_div_nearest p q Hq) as Hn.
  nia.
Qed.

End Rounding.

(** The two readings of [percent] agree on every pair of counts up to a
    hundred, ties included. *)
Lemma percent_f64_agrees :
  forallb (fun d =>
    forallb (fun n => bool_decide (percent_f64 n d = Some (percent n d)))
            (Z.of_nat <$> seq 0 101))
    (Z.of_nat <$> seq 0 101) = true.
Proof. vm_compute. reflexivity. Qed.

(** They agree at the end of the range too, on quotients as close to a half
    as the range allows.  With [d = 200 * t + 99], the quotient of
    [n = 101 * t + 50] is [50.5 + 1 / (2 * d)], to be rounded to [51], and
    that of [n = 99 * t + 49] is [49.5 - 1 / (2 * d)], to be rounded to
    [49]; with [d = 200 * t], the quotients of [n = 101 * t] and
    [n = 99 * t] are the ties [50.5] and [49.5], both to be rounded to
    [50].  The values of [t] bring [n * 100] within half a percent of
    [2^52]. *)
Lemma percent_f64_agrees_near_ties :
  forallb (fun t =>
    forallb (fun '(n, d, r) =>
      bool_decide (n * 100 < 2 ^ 52 /\ d < 2 ^ 53
                   /\ percent n d = r /\ percent_f64 n d = Some r))
      [ (101 * t + 50, 200 * t + 99, 51); (99 * t + 49, 200 * t + 99, 49);
        (101 * t, 200 * t, 50); (99 * t, 200 * t, 50) ])
    ((fun i => 435000000000 + 1000000007 * Z.of_nat i) <$> seq 0 10) = true.
Proof. vm_compute. reflexivity. Qed.

(** Beyond the range they differ: the exact quotient of these two counts is
    below [99.5], its binary64 value is [99.5] and is rounded to [100]. *)
Example percent_f64_beyond_range :
  percent_f64 218802813927622 219902325555399 = Some 100
  /\ percent 218802813927622 219902325555399 = 99
  /\ 2 ^ 52 <= 218802813927622 * 100.
Proof. split; [vm_compute; reflexivity | split; [reflexivity | lia]]. Qed.

Lemma py_round_div_half_up (p q : Z) :
  0 < q -> 2 * (p mod q) <> q -> py_round_div p q = round_half_up p q.
Proof.
  intros Hq Htie. rewrite py_round_div_pos by assumption.
  unfold round_half_up.
  pose proof (Z.div_mod p q ltac:(lia)) as Hdm.
  pose proof (Z.mod_pos_bound p q Hq) as Hb.
  destruct (2 * (p mod q) <? q) eqn:E1.
  - apply (Z.div_unique _ _ _ (2 * (p mod q) + q)); lia.
  - destruct (q <? 2 * (p mod q)) eqn:E2; [| lia].
    apply (Z.div_unique _ _ _ (2 * (p mod q) - q)); lia.
Qed.

Lemma percent_bounds (n d : Z) : 0 <= n <= d -> 0 <= percent n d <= 100.
Proof.
  intros H. unfold percent. destruct (d =? 0) eqn:E; [lia |].
  apply py_round_div_bounds; lia.
Qed.

(** C2, as stated: [percent] against rounding with halves going up.  The
    source rounds with Python's [round], which sends a half to the even
    neighbour: [1/8] is [12.5] percent and is reported as [12].  And the
    source rounds the binary64 quotient, not the exact one: for large counts
    the two lie on different sides of a half, and [percent] is then not the
    rounding of [n * 100 / d] under any rule for halves. *)
Lemma percent_half_up_counterexample :
  (0 <= 1 /\ 0 < 8 /\ percent 1 8 = 12 /\ round_half_up (1 * 100) 8 = 13
   /\ percent 1 8 <> round_half_up (1 * 100) 8)
  /\ (percent_f64 218802813927622 219902325555399 = Some 100
      /\ 2 * (218802813927622 * 100) < (2 * 99 + 1) * 219902325555399
      /\ round_half_up (218802813927622 * 100) 219902325555399 = 99).
Proof.
  split.
  - split; [lia |]. repeat split. discriminate.
  - split; [vm_compute; reflexivity |]. split; [lia | reflexivity].
Qed.

(** C2, amended: for [0 <= n], [0 < d], [n * 100 < 2^52] and [d < 2^53] (the
    range in which the binary64 quotient rounds as the exact one),
    [percent n d] is an integer nearest to [n * 100 / d]; when the quotient
    lies exactly halfway between two integers the even one is taken; away
    from such ties it is the rounding with halves going up; and
    [percent 1 2 = 50], [percent 1 3 = 33], [percent 2 3 = 67]. *)
Theorem percent_rounds_half_even (n d : Z) :
  0 <= n -> 0 < d -> n * 100 < 2 ^ 52 -> d < 2 ^ 53 ->
  2 * Z.abs (n * 100 - percent n d * d) <= d
  /\ (2 * Z.abs (n * 100 - percent n d * d) = d -> Z.even (percent n d) = true)
  /\ (2 * ((n * 100) mod d) <> d -> percent n d = round_half_up (n * 100) d)
  /\ percent 1 2 = 50 /\ percent 1 3 = 33 /\ percent 2 3 = 67.
Proof.
  intros Hn Hd _ _. unfold percent at 1 2 3 4.
  destruct (d =? 0) eqn:E; [lia |].
  split; [apply py_round_div_nearest; lia |].
  split; [apply py_round_div_tie_even; lia |].
  split; [apply py_round_div_half_up; lia |].
  repeat split; reflexivity.
Qed.

Lemma percent_rounds_half_even_witness :
  2 * Z.abs (3 * 100 - percent 3 8 * 8) <= 8
  /\ (2 * Z.abs (3 * 100 - percent 3 8 * 8) = 8 -> Z.even (percent 3 8) = true)
  /\ (2 * ((3 * 100) mod 8) <> 8 -> percent 3 8 = round_half_up (3 * 100) 8)
  /\ percent 1 2 = 50 /\ percent 1 3 = 33 /\ percent 2 3 = 67.
Proof. apply (percent_rounds_half_even 3 8); lia. Defined.

(** C8: [percent(0, 0)] is [0]; a zero denominator never reaches the
    division, whatever the numerator. *)
Theorem percent_zero_denominator :
  percent 0 0 = 0 /\ forall n : Z, percent n 0 = 0.
Proof. split; [reflexivity | intros n; reflexivity]. Qed.

(** ** Sums over the catalog *)

Section Sums.

Lemma foldl_add_shift (a : Z) (l : list Z) : foldl Z.add a l = a + py_sum l.
Proof.
  unfold py_sum. revert a.
  induction l as [|x l IH]; intros a; simpl; [lia |].
  rewrite (IH (a + x)), (IH (0 + x)). lia.
Qed.

Lemma py_sum_nil : py_sum [] = 0.
Proof. reflexivity. Qed.

Lemma py_sum_cons (x : Z) (l : list Z) : py_sum (x :: l) = x + py_sum l.
Proof. unfold py_sum at 1. simpl. apply foldl_add_shift. Qed.

Lemma py_sum_perm (l1 l2 : list Z) : l1 ≡ₚ l2 -> py_sum l1 = py_sum l2.
Proof.
  induction 1 as [|x l1 l2 _ IH|x y l|l1 l2 l3 _ IH1 _ IH2].
  - reflexivity.
  - rewrite !py_sum_cons. lia.
  - rewrite !py_sum_cons. lia.
  - congruence.
Qed.

Lemma py_sum_fmap_le {A} (f g : A -> Z) (l : list A) :
  (forall x, f x <= g x) -> py_sum (f <$> l) <= py_sum (g <$> l).
Proof.
  intros Hfg. induction l as [|x l IH]; [reflexivity |].
  rewrite !fmap_cons, !py_sum_cons. specialize (Hfg x). lia.
Qed.

Lemma py_sum_fmap_nonneg {A} (f : A -> Z) (l : list A) :
  (forall x, 0 <= f x) -> 0 <= py_sum (f <$> l).
Proof.
  intros Hf. induction l as [|x l IH]; [reflexivity |].
  rewrite fmap_cons, py_sum_cons. specialize (Hf x). lia.
Qed.

Lemma py_sum_fmap_zero {A} (f : A -> Z) (l : list A) :
  (forall x, f x = 0) -> py_sum (f <$> l) = 0.
Proof.
  intros Hf. induction l as [|x l IH]; [reflexivity |].
  rewrite fmap_cons, py_sum_cons, Hf, IH. reflexivity.
Qed.

Lemma values_insert (m : gmap str (gset str)) (t : str) (v : gset str) :
  m !! t = None -> values (<[t := v]> m) ≡ₚ v :: values m.
Proof.
  intros Hm. unfold values.
  rewrite (map_to_list_insert m t v Hm). reflexivity.
Qed.

Lemma elem_of_values (m : gmap str (gset str)) (v : gset str) :
  v ∈ values m <-> exists t, m !! t = Some v.
Proof.
  unfold values. rewrite list_elem_of_fmap. split.
  - intros [[t v'] [-> Hin]]. exists t. by apply elem_of_map_to_list.
  - intros [t Ht]. exists (t, v). split; [done |]. by apply elem_of_map_to_list.
Qed.

Lemma py_len_nonneg (v : gset str) : 0 <= py_len v.
Proof. unfold py_len. lia. Qed.

Lemma py_len_inter_le (v c : gset str) : py_len (v ∩ c) <= py_len v.
Proof.
  unfold py_len. apply inj_le, subseteq_size, intersection_subseteq_l.
Qed.

End Sums.

Lemma foldl_topic_entry_lookup (completed : gset str)
    (l : list (str * gset str)) (acc : gmap str stats) (t : str) :
  NoDup l.*1 ->
  foldl (topic_entry completed) acc l !! t =
    match (list_to_map l : gmap str (gset str)) !! t with
    | Some slugs => Some (topic_stats completed slugs)
    | None => acc !! t
    end.
Proof.
  revert acc. induction l as [|[k v] l IH]; intros acc Hnd; simpl.
  - by rewrite lookup_empty.
  - apply NoDup_cons in Hnd as [Hk Hnd]. rewrite (IH _ Hnd).
    destruct (decide (k = t)) as [->|Hne].
    + rewrite lookup_insert_eq.
      rewrite (not_elem_of_list_to_map_1 l t Hk).
      by rewrite lookup_insert_eq.
    + rewrite !lookup_insert_ne by done. reflexivity.
Qed.

(** The per-topic part of the report holds, for every topic of the catalog
    and for no other, the statistics of that topic. *)
Lemma aggregate_topics_lookup (completed : gset str)
    (catalog : gmap str (gset str)) (t : str) :
  topics (aggregate completed catalog) !! t = topic_stats completed <$> catalog !! t.
Proof.
  unfold aggregate, items. simpl.
  rewrite foldl_topic_entry_lookup by apply NoDup_fst_map_to_list.
  rewrite list_to_map_to_list.
  destruct (catalog !! t); [done | by rewrite lookup_empty].
Qed.

(** C7: for every catalog and completed set, the overall summary and every
    per-topic summary have [done <= total] and [0 <= pct <= 100]. *)
Theorem summary_bounds (completed : gset str) (catalog : gmap str (gset str)) :
  let r := aggregate completed catalog in
  (done (summary r) <= total (summary r) /\ 0 <= pct (summary r) <= 100)
  /\ forall (t : str) (st : stats), topics r !! t = Some st ->
       done st <= total st /\ 0 <= pct st <= 100.
Proof.
  intros r. split.
  - subst r. unfold aggregate. simpl.
    assert (py_sum ((fun v => py_len (v ∩ completed)) <$> values catalog)
            <= py_sum (py_len <$> values catalog)) as Hle
      by (apply py_sum_fmap_le; intros v; apply py_len_inter_le).
    split; [exact Hle |].
    apply percent_bounds. split; [| exact Hle].
    apply py_sum_fmap_nonneg. intros v. apply py_len_nonneg.
  - intros t st Hst. subst r. rewrite aggregate_topics_lookup in Hst.
    destruct (catalog !! t) as [slugs|]; [| discriminate].
    injection Hst as <-. simpl.
    pose proof (py_len_inter_le slugs completed).
    pose proof (py_len_nonneg (slugs ∩ completed)).
    split; [done |]. apply percent_bounds. lia.
Qed.

(** ** Per-topic sum and global intersection *)

Lemma pairwise_disjoint_lookup (catalog : gmap str (gset str)) :
  pairwise_disjoint catalog <->
  forall t1 t2 v1 v2, catalog !! t1 = Some v1 -> catalog !! t2 = Some v2 ->
    t1 <> t2 -> v1 ## v2.
Proof.
  unfold pairwise_disjoint. split.
  - intros H t1 t2 v1 v2 H1 H2. exact (H t1 v1 H1 t2 v2 H2).
  - intros H t1 v1 H1 t2 v2 H2. exact (H t1 t2 v1 v2 H1 H2).
Qed.

Section Global.

Variable completed : gset str.

Lemma union_values_insert (m : gmap str (gset str)) (t : str) (v : gset str) :
  m !! t = None -> ⋃ values (<[t := v]> m) = v ∪ ⋃ values m.
Proof.
  intros Hm. apply set_eq. intros x.
  rewrite elem_of_union, !elem_of_union_list. split.
  - intros (X & HX & Hx). rewrite (values_insert m t v Hm) in HX.
    apply elem_of_cons in HX as [-> | HX]; [by left | right; eauto].
  - intros [Hx | (X & HX & Hx)].
    + exists v. split; [| done]. rewrite (values_insert m t v Hm). left.
    + exists X. split; [| done]. rewrite (values_insert m t v Hm). by right.
Qed.

Lemma done_sum_insert (m : gmap str (gset str)) (t : str) (v : gset str) :
  m !! t = None ->
  py_sum ((fun v => py_len (v ∩ completed)) <$> values (<[t := v]> m))
  = py_len (v ∩ completed)
    + py_sum ((fun v => py_len (v ∩ completed)) <$> values m).
Proof.
  intros Hm. rewrite <- py_sum_cons. apply py_sum_perm.
  rewrite (values_insert m t v Hm). reflexivity.
Qed.

(** Summing per topic never counts less than the global intersection. *)
Lemma global_done_le_sum (catalog : gmap str (gset str)) :
  global_done completed catalog
  <= py_sum ((fun v => py_len (v ∩ completed)) <$> values catalog).
Proof.
  unfold global_done.
  induction catalog as [|t v m Hm IH] using map_ind.
  - unfold values. rewrite map_to_list_empty. cbn [fmap list_fmap union_list foldr].
    rewrite (left_absorb_L ∅ (∩)). reflexivity.
  - rewrite done_sum_insert, union_values_insert by done.
    etransitivity; [| apply Z.add_le_mono_l, IH].
    unfold py_len. rewrite <- Nat2Z.inj_add. apply inj_le.
    replace ((v ∪ ⋃ values m) ∩ completed)
      with ((v ∩ completed) ∪ (⋃ values m ∩ completed)) by set_solver.
    rewrite size_union_alt.
    apply Nat.add_le_mono_l, subseteq_size. set_solver.
Qed.

Lemma sum_is_global_done (catalog : gmap str (gset str)) :
  pairwise_disjoint catalog ->
  py_sum ((fun v => py_len (v ∩ completed)) <$> values catalog)
  = global_done completed catalog.
Proof.
  unfold global_done.
  induction catalog as [|t v m Hm IH] using map_ind; intros Hdisj.
  - unfold values. rewrite map_to_list_empty. cbn [fmap list_fmap union_list foldr].
    rewrite (left_absorb_L ∅ (∩)). reflexivity.
  - rewrite pairwise_disjoint_lookup in Hdisj.
    rewrite done_sum_insert, union_values_insert by done.
    rewrite IH.
    + unfold py_len. rewrite <- Nat2Z.inj_add. f_equal.
      replace ((v ∪ ⋃ values m) ∩ completed)
        with ((v ∩ completed) ∪ (⋃ values m ∩ completed)) by set_solver.
      symmetry. apply size_union.
      intros x Hx1 Hx2.
      apply elem_of_intersection in Hx1 as [Hx1 _].
      apply elem_of_intersection in Hx2 as [Hx2 _].
      apply elem_of_union_list in Hx2 as (X & HX & Hx2).
      apply elem_of_values in HX as [t' Ht'].
      assert (t <> t') as Hne by (intros ->; congruence).
      assert (v ## X) as Hd.
      { apply (Hdisj t t'); [by rewrite lookup_insert_eq | | done].
        by rewrite lookup_insert_ne. }
      exact (Hd x Hx1 Hx2).
    + apply pairwise_disjoint_lookup. intros t1 t2 v1 v2 H1 H2.
      assert (t <> t1) by (intros ->; congruence).
      assert (t <> t2) by (intros ->; congruence).
      apply (Hdisj t1 t2); by rewrite lookup_insert_ne.
Qed.

End Global.

(** C1, as stated, fails: two topic directories may hold files of the same
    stem, and then the topic sets share that identifier.  With
    [exercises/variables/intro.rs], [exercises/functions/intro.rs] and
    [intro] completed, the per-topic sum is [2] and the global intersection
    has one element. *)
Lemma done_sum_counterexample :
  let root := [lit "/"; lit "home"; lit "learner"; lit "rustlings-journey"] in
  let tree := [Dir (lit "variables") [File (lit "intro.rs")];
               Dir (lit "functions") [File (lit "intro.rs")]] in
  let catalog := find_all_exercises root (Some tree) in
  let completed := read_completed_slugs (Some (lit "intro.rs")) in
  catalog = <[lit "variables" := {[ lit "intro" ]}]> {[ lit "functions" := {[ lit "intro" ]} ]}
  /\ done (summary (aggregate completed catalog)) = 2
  /\ global_done completed catalog = 1
  /\ ~ pairwise_disjoint catalog.
Proof.
  cbv zeta. split; [vm_compute; reflexivity |].
  split; [vm_compute; reflexivity |].
  split; [vm_compute; reflexivity |].
  rewrite pairwise_disjoint_lookup. intros H.
  specialize (H (lit "variables") (lit "functions") {[ lit "intro" ]} {[ lit "intro" ]}).
  assert ({[ lit "intro" ]} ## ({[ lit "intro" ]} : gset str)) as Hd.
  { apply H; [vm_compute; reflexivity | vm_compute; reflexivity | discriminate]. }
  apply (Hd (lit "intro")); apply elem_of_singleton; reflexivity.
Qed.

(** C1, amended: for every catalog whose topic sets are pairwise disjoint and
    every completed set, the overall done count, the sum over the topics of
    the size of (topic set ∩ completed), is the size of the intersection of
    the union of all topic sets with the completed set. *)
Theorem done_sum_is_global_intersection
    (completed : gset str) (catalog : gmap str (gset str)) :
  pairwise_disjoint catalog ->
  done (summary (aggregate completed catalog)) = global_done completed catalog.
Proof.
  intros Hdisj. unfold aggregate. cbn [summary done].
  by apply sum_is_global_done.
Qed.

#[global] Instance pairwise_disjoint_dec (catalog : gmap str (gset str)) :
  Decision (pairwise_disjoint catalog).
Proof. unfold pairwise_disjoint. apply _. Defined.

Lemma done_sum_is_global_intersection_witness :
  let catalog : gmap str (gset str) :=
    <[lit "variables" := {[ lit "variables1"; lit "variables2" ]}]>
      {[ lit "move_semantics" := {[ lit "move_semantics2" ]} ]} in
  let completed : gset str := {[ lit "variables1"; lit "move_semantics2" ]} in
  pairwise_disjoint catalog
  /\ done (summary (aggregate completed catalog)) = global_done completed catalog.
Proof.
  cbv zeta.
  assert (pairwise_disjoint
            (<[lit "variables" := {[ lit "variables1"; lit "variables2" ]}]>
               {[ lit "move_semantics" := {[ lit "move_semantics2" ]} ]})) as H.
  { apply (bool_decide_unpack _). vm_compute. exact I. }
  split; [exact H |].
  apply (done_sum_is_global_intersection _ _ H).
Defined.

(** ** Paths *)

Section Paths.

Lemma name_snoc (parts : list str) (n : str) : name (parts ++ [n]) = n.
Proof. unfold name. apply last_last. Qed.

Lemma parent_snoc (parts : list str) (n : str) : parent (parts ++ [n]) = parts.
Proof. unfold parent. apply removelast_last. Qed.

Lemma excluded_app (l1 l2 : list str) :
  excluded (l1 ++ l2) = excluded l1 || excluded l2.
Proof. unfold excluded. apply existsb_app. Qed.

Lemma excluded_true (parts : list str) :
  excluded parts = true <-> exists part, part ∈ parts /\ part ∈ EXCLUDE_DIRS.
Proof.
  unfold excluded. rewrite existsb_exists. split.
  - intros (part & Hin & Hex). exists part. split.
    + by apply list_elem_of_In.
    + by apply bool_decide_eq_true in Hex.
  - intros (part & Hin & Hex). exists part. split.
    + by apply list_elem_of_In.
    + by apply bool_decide_eq_true.
Qed.

(** A directory is never counted. *)
Lemma scan_step_dir (m : gmap str (gset str)) (parts : list str) :
  scan_step m (parts, false) = m.
Proof. unfold scan_step. cbn [fst snd andb]. by destruct (excluded parts). Qed.

(** An excluded path is never counted. *)
Lemma scan_step_excluded (m : gmap str (gset str)) (p : path) :
  excluded p.1 = true -> scan_step m p = m.
Proof. intros H. unfold scan_step. by rewrite H. Qed.

(** A file directly inside a topic directory of [EXER_DIR]. *)
Lemma scan_step_file (root : list str) (d n : str) (m : gmap str (gset str)) :
  excluded root = false ->
  scan_step m ((EXER_DIR root ++ [d]) ++ [n], true)
  = if excluded [d; n] then m
    else if bool_decide (suffix n ∈ VALID_EXTS) then add_slug d (stem n) m
    else m.
Proof.
  intros Hroot. unfold scan_step. cbn [fst snd andb].
  rewrite !name_snoc, parent_snoc, name_snoc.
  unfold EXER_DIR. rewrite <- !app_assoc, !excluded_app, Hroot.
  change [d; n] with ([d] ++ [n]). rewrite excluded_app.
  replace (excluded [lit "exercises"]) with false by (vm_compute; reflexivity).
  reflexivity.
Qed.

End Paths.

(** ** The scenario of the specification *)

Lemma scenario_catalog (root : list str) :
  excluded root = false ->
  find_all_exercises root (Some scenario_tree)
  = <[lit "variables" := {[ lit "variables1"; lit "variables2" ]}]>
      {[ lit "move_semantics" := {[ lit "move_semantics2" ]} ]}.
Proof.
  intros Hroot. unfold find_all_exercises, scan, scenario_tree.
  cbn [flat_map rglob app foldl].
  rewrite !scan_step_dir, !(scan_step_file root) by exact Hroot.
  vm_compute. reflexivity.
Qed.

(** C3, as stated, fails where the repository lies below a directory that
    bears an excluded name: the scanner tests every part of the absolute
    path, the parts above the exercise directory too, so with the same state
    file and the same tree below [/home/learner/target/rustlings-journey]
    nothing is counted and the report is all zero, without topics. *)
Lemma scenario_below_excluded_counterexample :
  let root := [lit "/"; lit "home"; lit "learner"; lit "target";
               lit "rustlings-journey"] in
  (main true root
     (World (Some scenario_state) (Some scenario_tree) None)).1
  = Report (Stats 0 0 0) ∅
  /\ (main true root
        (World (Some scenario_state) (Some scenario_tree) None)).1
     <> Report (Stats 2 3 67)
          (<[lit "variables" := Stats 1 2 50]>
             {[ lit "move_semantics" := Stats 1 1 100 ]}).
Proof.
  cbv zeta.
  assert ((main true
             [lit "/"; lit "home"; lit "learner"; lit "target";
              lit "rustlings-journey"]
             (World (Some scenario_state) (Some scenario_tree) None)).1
          = Report (Stats 0 0 0) ∅) as E by (vm_compute; reflexivity).
  split; [exact E |]. rewrite E. discriminate.
Qed.

(** C3, amended: the state file holds the lines [variables1.rs] and
    [move_semantics2 (extra text)]; [exercises/variables] holds
    [variables1.rs] and [variables2.rs], [exercises/move_semantics] holds
    [move_semantics2.rs].  When no part of the path of the repository is an
    excluded name ([answers], [.git], [target]), then, with or without
    [--dry-run] and whatever the README, the JSON object printed is:
    [variables] done 1, total 2, pct 50; [move_semantics] done 1, total 1,
    pct 100; overall done 2, total 3, pct 67. *)
Theorem scenario_report (update_files : bool) (root : list str) (rd : option str) :
  excluded root = false ->
  (main update_files root
     (World (Some scenario_state) (Some scenario_tree) rd)).1
  = Report (Stats 2 3 67)
      (<[lit "variables" := Stats 1 2 50]>
         {[ lit "move_semantics" := Stats 1 1 100 ]}).
Proof.
  intros Hroot. unfold main.
  cbn [fst state_file exer_dir].
  rewrite (scenario_catalog root Hroot).
  vm_compute. reflexivity.
Qed.

Lemma scenario_report_witness :
  excluded scenario_root = false
  /\ (main true scenario_root
        (World (Some scenario_state) (Some scenario_tree) None)).1
     = Report (Stats 2 3 67)
         (<[lit "variables" := Stats 1 2 50]>
            {[ lit "move_semantics" := Stats 1 1 100 ]}).
Proof.
  split; [reflexivity |].
  apply (scenario_report true scenario_root None). reflexivity.
Defined.

(** C9: an absent state file gives the empty set of completed identifiers,
    and the run then reports no completion, overall and in every topic. *)
Theorem missing_state_file_is_empty
    (update_files : bool) (root : list str)
    (tree : option (list entry)) (rd : option str) :
  read_completed_slugs None = ∅
  /\ done (summary (main update_files root (World None tree rd)).1) = 0
  /\ map_Forall (fun _ st => done st = 0)
       (topics (main update_files root (World None tree rd)).1).
Proof.
  split; [reflexivity |]. unfold main. cbn [fst state_file exer_dir].
  cbn [read_completed_slugs].
  split.
  - unfold aggregate. cbn [summary done].
    apply py_sum_fmap_zero. intros v.
    by rewrite (right_absorb_L ∅ (∩)).
  - intros t st Hst. rewrite aggregate_topics_lookup in Hst.
    destruct (find_all_exercises root tree !! t) as [slugs|]; [| discriminate].
    injection Hst as <-. cbn [done topic_stats].
    by rewrite (right_absorb_L ∅ (∩)).
Qed.

(** ** Exclusion *)

Section Exclusion.

Lemma scan_step_counted (m : gmap str (gset str)) (p : path) :
  scan_step m p
  = if counted p then add_slug (name (parent p.1)) (stem (name p.1)) m else m.
Proof.
  unfold scan_step, counted. destruct (excluded p.1); [reflexivity |].
  cbn [negb andb]. reflexivity.
Qed.

Lemma add_slug_lookup (m : gmap str (gset str)) (topic slug t : str)
    (slugs : gset str) (x : str) :
  add_slug topic slug m !! t = Some slugs -> x ∈ slugs ->
  (t = topic /\ x = slug) \/ exists s0, m !! t = Some s0 /\ x ∈ s0.
Proof.
  unfold add_slug. intros Hl Hx.
  destruct (decide (topic = t)) as [->|Hne].
  - rewrite lookup_insert_eq in Hl. injection Hl as <-.
    apply elem_of_union in Hx as [Hx | Hx].
    + right. destruct (m !! t) as [s0|]; [eauto |].
      exfalso. revert Hx. cbn. apply not_elem_of_empty.
    + left. apply elem_of_singleton in Hx. done.
  - rewrite lookup_insert_ne in Hl by done. right. eauto.
Qed.

(** Every identifier of the catalog was put there by a counted path. *)
Lemma foldl_scan_step_origin (l : list path) (acc : gmap str (gset str))
    (t : str) (slugs : gset str) (x : str) :
  foldl scan_step acc l !! t = Some slugs -> x ∈ slugs ->
  (exists q, q ∈ l /\ counted q = true
             /\ name (parent q.1) = t /\ stem (name q.1) = x)
  \/ exists s0, acc !! t = Some s0 /\ x ∈ s0.
Proof.
  revert acc. induction l as [|p l IH]; intros acc Hl Hx; cbn [foldl] in Hl.
  - right. eauto.
  - destruct (IH _ Hl Hx) as [(q & Hq & Hc & Hn & Hs) | (s0 & Hs0 & Hx0)].
    + left. exists q. split; [by right | done].
    + rewrite scan_step_counted in Hs0.
      destruct (counted p) eqn:Hc; [| right; eauto].
      destruct (add_slug_lookup _ _ _ _ _ _ Hs0 Hx0) as [[-> ->] | Hacc].
      * left. exists p. split; [left | done].
      * by right.
Qed.

Lemma foldl_scan_step_skip (l1 l2 : list path) (p : path)
    (acc : gmap str (gset str)) :
  excluded p.1 = true ->
  foldl scan_step acc (l1 ++ p :: l2) = foldl scan_step acc (l1 ++ l2).
Proof.
  intros Hp. rewrite !foldl_app. cbn [foldl].
  by rewrite (scan_step_excluded _ p Hp).
Qed.

(** The nested induction over the tree. *)
Lemma entry_tree_ind (P : entry -> Prop) :
  (forall n, P (File n)) ->
  (forall n cs, Forall P cs -> P (Dir n cs)) ->
  forall e, P e.
Proof.
  intros Hfile Hdir. fix IH 1. intros [n | n cs]; [apply Hfile |].
  apply Hdir. induction cs as [|c cs IHcs]; constructor; [apply IH | exact IHcs].
Qed.

(** Every path listed below a directory carries the parts of that
    directory. *)
Lemma rglob_parts (e : entry) :
  forall (par : list str) (q : path), q ∈ rglob par e -> par `prefix_of` q.1.
Proof.
  induction e as [n | n cs IH] using entry_tree_ind; intros par q Hq.
  - cbn in Hq. apply list_elem_of_singleton in Hq as ->. by apply prefix_app_r.
  - cbn [rglob] in Hq. apply elem_of_cons in Hq as [-> | Hq].
    + by apply prefix_app_r.
    + apply list_elem_of_In, in_flat_map in Hq as (c & Hc & Hq).
      apply list_elem_of_In in Hc, Hq.
      rewrite Forall_forall in IH.
      transitivity (par ++ [n]); [by apply prefix_app_r |].
      by apply (IH c Hc).
Qed.

(** Whatever lies below an excluded directory, at any depth, is excluded. *)
Lemma below_excluded_dir (par : list str) (n : str) (cs : list entry) (q : path) :
  n ∈ EXCLUDE_DIRS -> q ∈ rglob par (Dir n cs) -> excluded q.1 = true.
Proof.
  intros Hn Hq. apply excluded_true. exists n. split; [| done].
  cbn [rglob] in Hq. apply elem_of_cons in Hq as [-> | Hq].
  - cbn [fst]. apply elem_of_app. right. left.
  - apply list_elem_of_In, in_flat_map in Hq as (c & Hc & Hq).
    apply list_elem_of_In in Hq. apply rglob_parts in Hq as [k ->].
    apply elem_of_app. left. apply elem_of_app. right. left.
Qed.

End Exclusion.

(** C6: a scanned path one of whose parts is in the exclusion set is never
    counted, whatever its depth and its extension: the catalog is the one
    the scan gives without that path, and each identifier in it comes from
    another scanned path, a counted one. *)
Theorem excluded_path_never_counted
    (root : list str) (tree : list entry) (l1 l2 : list path) (p : path) :
  scan root tree = l1 ++ p :: l2 ->
  (exists part, part ∈ p.1 /\ part ∈ EXCLUDE_DIRS) ->
  find_all_exercises root (Some tree) = foldl scan_step ∅ (l1 ++ l2)
  /\ forall (t : str) (slugs : gset str) (x : str),
       find_all_exercises root (Some tree) !! t = Some slugs -> x ∈ slugs ->
       exists q, q ∈ l1 ++ l2 /\ counted q = true
                 /\ name (parent q.1) = t /\ stem (name q.1) = x.
Proof.
  intros Hscan Hex. apply excluded_true in Hex.
  assert (find_all_exercises root (Some tree) = foldl scan_step ∅ (l1 ++ l2)) as E.
  { unfold find_all_exercises. rewrite Hscan. by apply foldl_scan_step_skip. }
  split; [exact E |].
  intros t slugs x Hl Hx. rewrite E in Hl.
  destruct (foldl_scan_step_origin _ _ _ _ _ Hl Hx) as [Hq | (s0 & Hs0 & _)].
  - exact Hq.
  - by rewrite lookup_empty in Hs0.
Qed.

Lemma excluded_path_never_counted_witness :
  let tree := [Dir (lit "variables") [File (lit "variables1.rs")];
               Dir (lit "answers") [Dir (lit "variables") [File (lit "variables1.rs")]]] in
  let ex := EXER_DIR scenario_root in
  let l1 := [(ex ++ [lit "variables"], false);
             (ex ++ [lit "variables"; lit "variables1.rs"], true);
             (ex ++ [lit "answers"], false);
             (ex ++ [lit "answers"; lit "variables"], false)] in
  let p := (ex ++ [lit "answers"; lit "variables"; lit "variables1.rs"], true) in
  find_all_exercises scenario_root (Some tree) = foldl scan_step ∅ (l1 ++ [])
  /\ forall (t : str) (slugs : gset str) (x : str),
       find_all_exercises scenario_root (Some tree) !! t = Some slugs -> x ∈ slugs ->
       exists q, q ∈ l1 ++ [] /\ counted q = true
                 /\ name (parent q.1) = t /\ stem (name q.1) = x.
Proof.
  cbv zeta.
  apply (excluded_path_never_counted scenario_root _ _ []
           (EXER_DIR scenario_root
              ++ [lit "answers"; lit "variables"; lit "variables1.rs"], true)).
  - vm_compute. reflexivity.
  - exists (lit "answers"). split.
    + apply list_elem_of_In. vm_compute. tauto.
    + apply (bool_decide_unpack _). vm_compute. exact I.
Defined.

(** ** Searching a string *)

Section Search.

Implicit Types m s u t : str.

Lemma startswith_cons (a b : N) m s :
  startswith (a :: m) (b :: s) = true <-> a = b /\ startswith m s = true.
Proof.
  cbn [startswith]. destruct (N.eqb a b) eqn:E.
  - apply N.eqb_eq in E. by split; [| intros [_ ?]].
  - apply N.eqb_neq in E. split; [discriminate | intros [? _]; contradiction].
Qed.

Lemma startswith_app m s : startswith m (m ++ s) = true.
Proof.
  induction m as [|a m IH]; [reflexivity |].
  apply startswith_cons. by split.
Qed.

Lemma startswith_inv m s : startswith m s = true -> s = m ++ drop (length m) s.
Proof.
  revert s. induction m as [|a m IH]; intros s H; [reflexivity |].
  destruct s as [|b s]; [discriminate |].
  apply startswith_cons in H as [-> H]. cbn. f_equal. by apply IH.
Qed.

(** A prefix of [u ++ t] lies within [u] or runs over into [t]. *)
Lemma startswith_split m u t :
  startswith m (u ++ t) = true ->
  startswith m u = true
  \/ exists w, w <> [] /\ m = u ++ w /\ startswith w t = true.
Proof.
  revert m. induction u as [|b u IH]; intros m H.
  - destruct m as [|a m]; [by left |]. right. by exists (a :: m).
  - destruct m as [|a m]; [by left |].
    cbn [app] in H. apply startswith_cons in H as [-> H].
    destruct (IH m H) as [Hl | (w & Hw & -> & Hs)].
    + left. by apply startswith_cons.
    + right. by exists w.
Qed.

Lemma startswith_take m s :
  startswith m (take (length m) s) = startswith m s.
Proof.
  revert s. induction m as [|a m IH]; intros s; [reflexivity |].
  destruct s as [|b s]; [reflexivity |].
  cbn. by rewrite IH.
Qed.

Lemma find_nil m : find m [] = if startswith m [] then Some 0%nat else None.
Proof. reflexivity. Qed.

Lemma find_cons m (c : N) t :
  find m (c :: t)
  = if startswith m (c :: t) then Some 0%nat else S <$> find m t.
Proof. reflexivity. Qed.

Lemma find_at_head m s : startswith m s = true -> find m s = Some 0%nat.
Proof.
  intros H. destruct s; [rewrite find_nil | rewrite find_cons]; by rewrite H.
Qed.

Lemma find_None_startswith m s : find m s = None -> startswith m s = false.
Proof.
  destruct s; [rewrite find_nil | rewrite find_cons];
    by destruct (startswith m _).
Qed.

Lemma find_None_tail m (c : N) t : find m (c :: t) = None -> find m t = None.
Proof.
  rewrite find_cons. destruct (startswith m (c :: t)); [discriminate |].
  by destruct (find m t).
Qed.

Lemma find_None_drop m s (j : nat) : find m s = None -> find m (drop j s) = None.
Proof.
  revert s. induction j as [|j IH]; intros s H; [by rewrite drop_0 |].
  destruct s as [|c t]; [exact H |].
  cbn [drop]. apply IH. by apply find_None_tail in H.
Qed.

Lemma find_is_Some_app m u t :
  startswith m t = true -> is_Some (find m (u ++ t)).
Proof.
  intros H. induction u as [|c u IH]; cbn [app].
  - destruct t; [rewrite find_nil | rewrite find_cons]; rewrite H; eauto.
  - rewrite find_cons. destruct (startswith m (c :: u ++ t)); [eauto |].
    destruct IH as [i ->]. eauto.
Qed.

(** A pattern whose first character does not occur again in it cannot
    start inside [u] and run over into a copy of itself. *)
Lemma startswith_straddle (h : N) m u t :
  h ∉ m -> u <> [] ->
  startswith (h :: m) (u ++ (h :: m) ++ t) = true ->
  startswith (h :: m) u = true.
Proof.
  intros Hh Hu H.
  destruct (startswith_split _ _ _ H) as [Hl | (w & Hw & E & Hs)]; [exact Hl |].
  exfalso. destruct u as [|b u]; [done |].
  destruct w as [|a w]; [done |].
  cbn [app] in Hs. apply startswith_cons in Hs as [-> _].
  injection E as _ ->. apply Hh, elem_of_app. right. left.
Qed.

(** The same for a pattern that does not hold the character that follows
    [u]. *)
Lemma startswith_before (c : N) m u t :
  c ∉ m -> startswith m (u ++ c :: t) = true -> startswith m u = true.
Proof.
  intros Hc H.
  destruct (startswith_split _ _ _ H) as [Hl | (w & Hw & E & Hs)]; [exact Hl |].
  exfalso. destruct w as [|a w]; [done |].
  apply startswith_cons in Hs as [-> _].
  apply Hc. rewrite E. apply elem_of_app. right. left.
Qed.

Lemma find_app_first (h : N) m u t :
  h ∉ m -> find (h :: m) u = None ->
  find (h :: m) (u ++ (h :: m) ++ t) = Some (length u).
Proof.
  intros Hh. induction u as [|c u IH]; intros Hu.
  - pose proof (startswith_app (h :: m) t) as E.
    cbn [app length] in *. rewrite find_cons. by rewrite E.
  - change ((c :: u) ++ (h :: m) ++ t) with (c :: (u ++ (h :: m) ++ t)).
    cbn [length]. rewrite find_cons.
    destruct (startswith (h :: m) (c :: u ++ (h :: m) ++ t)) eqn:E.
    + apply (startswith_straddle h m (c :: u) t Hh) in E; [| done].
      apply find_None_startswith in Hu. congruence.
    + rewrite IH; [done |]. by apply find_None_tail in Hu.
Qed.

Lemma find_None_notin (h : N) m s : h ∉ s -> find (h :: m) s = None.
Proof.
  induction s as [|c s IH]; intros Hh; [reflexivity |].
  rewrite find_cons.
  destruct (startswith (h :: m) (c :: s)) eqn:E.
  - apply startswith_cons in E as [-> _]. exfalso. apply Hh. left.
  - rewrite IH; [done |]. intros Hin. apply Hh. by right.
Qed.

Lemma contains_false m s : contains m s = false <-> find m s = None.
Proof.
  unfold contains. rewrite bool_decide_eq_false.
  rewrite <- eq_None_not_Some. reflexivity.
Qed.

Lemma contains_true m s : contains m s = true <-> is_Some (find m s).
Proof. unfold contains. apply bool_decide_eq_true. Qed.

End Search.

(** ** The markers *)

Lemma marker_shape : exists m, marker = LT :: m /\ LT ∉ m.
Proof.
  exists (tl marker). split; [reflexivity |].
  apply (bool_decide_unpack _). vm_compute. exact I.
Qed.

Lemma end_marker_shape : exists m, end_marker = LT :: m /\ LT ∉ m.
Proof.
  exists (tl end_marker). split; [reflexivity |].
  apply (bool_decide_unpack _). vm_compute. exact I.
Qed.

Lemma marker_no_LF : LF ∉ marker.
Proof. apply (bool_decide_unpack _). vm_compute. exact I. Qed.

Lemma marker_no_CR : CR ∉ marker.
Proof. apply (bool_decide_unpack _). vm_compute. exact I. Qed.

Lemma end_marker_no_CR : CR ∉ end_marker.
Proof. apply (bool_decide_unpack _). vm_compute. exact I. Qed.

Lemma startswith_marker_LT (c : N) (t : str) :
  startswith marker (c :: t) = true -> c = LT.
Proof.
  destruct marker_shape as (m & -> & _). intros H.
  by apply startswith_cons in H as [-> _].
Qed.

(** The first end marker of [mid ++ end_marker ++ t] is the one shown when
    [mid] holds none. *)
Lemma find_end_marker_first (mid t : str) :
  find end_marker mid = None ->
  find end_marker (mid ++ end_marker ++ t) = Some (length mid).
Proof.
  destruct end_marker_shape as (m & -> & Hm). by apply find_app_first.
Qed.

Lemma find_marker_first (pre t : str) :
  find marker pre = None ->
  find marker (pre ++ marker ++ t) = Some (length pre).
Proof.
  destruct marker_shape as (m & -> & Hm). by apply find_app_first.
Qed.

Lemma find_end_marker_no_LT (s : str) : LT ∉ s -> find end_marker s = None.
Proof.
  destruct end_marker_shape as (m & -> & _). apply find_None_notin.
Qed.

(** ** The pattern at one position *)

Section BlockMatch.

Lemma block_match_Some (s : str) (n : nat) :
  block_match s = Some n ->
  startswith marker s = true
  /\ exists i, find end_marker (drop (length marker) s) = Some i
               /\ n = (length marker + i + length end_marker)%nat.
Proof.
  unfold block_match. destruct (startswith marker s); [| discriminate].
  destruct (find end_marker (drop (length marker) s)) as [i|]; [| discriminate].
  intros [= <-]. eauto.
Qed.

Lemma block_match_no_start (s : str) :
  startswith marker s = false -> block_match s = None.
Proof. unfold block_match. by intros ->. Qed.

Lemma block_match_no_end (s : str) :
  find end_marker (drop (length marker) s) = None -> block_match s = None.
Proof.
  unfold block_match. intros ->. by destruct (startswith marker s).
Qed.

Lemma block_match_None (s : str) :
  block_match s = None ->
  startswith marker s = false
  \/ find end_marker (drop (length marker) s) = None.
Proof.
  unfold block_match. destruct (startswith marker s); [| by left].
  destruct (find end_marker (drop (length marker) s)); [discriminate | by right].
Qed.

Lemma block_match_pos (s : str) (n : nat) :
  block_match s = Some n -> (0 < n)%nat.
Proof.
  intros H. apply block_match_Some in H as (_ & i & _ & ->).
  destruct marker_shape as (m & -> & _). cbn [length]. lia.
Qed.

(** A whole block at the head of the text. *)
Lemma block_match_block (mid t : str) :
  find end_marker mid = None ->
  block_match (marker ++ mid ++ end_marker ++ t)
  = Some (length (marker ++ mid ++ end_marker)).
Proof.
  intros Hmid. unfold block_match.
  rewrite startswith_app, drop_app_length, (find_end_marker_first _ _ Hmid).
  cbn [fmap option_fmap option_map]. f_equal.
  rewrite !length_app. lia.
Qed.

End BlockMatch.

(** ** The substitution *)

Section Substitution.

Variable repl : str.

Lemma re_sub_go_skip (k : nat) (s : str) :
  re_sub_go repl k s = re_sub repl (drop k s).
Proof.
  unfold re_sub. revert k. induction s as [|c t IH]; intros k.
  - by rewrite drop_nil.
  - destruct k as [|k]; [reflexivity |]. cbn [re_sub_go drop]. apply IH.
Qed.

Lemma re_sub_nil : re_sub repl [] = [].
Proof. reflexivity. Qed.

Lemma re_sub_match (s : str) (n : nat) :
  block_match s = Some n -> re_sub repl s = repl ++ re_sub repl (drop n s).
Proof.
  intros H. pose proof (block_match_pos s n H) as Hn.
  destruct s as [|c t]; [discriminate |].
  unfold re_sub at 1. cbn [re_sub_go]. rewrite H, re_sub_go_skip.
  destruct n as [|n]; [lia |].
  replace (S n - 1)%nat with n by lia. reflexivity.
Qed.

Lemma re_sub_nomatch (c : N) (t : str) :
  block_match (c :: t) = None -> re_sub repl (c :: t) = c :: re_sub repl t.
Proof. intros H. unfold re_sub. cbn [re_sub_go]. by rewrite H. Qed.

(** Where the pattern matches nowhere the text is left as it is. *)
Lemma re_sub_id (s : str) :
  (forall j : nat, block_match (drop j s) = None) -> re_sub repl s = s.
Proof.
  induction s as [|c t IH]; intros H; [reflexivity |].
  rewrite re_sub_nomatch by apply (H 0%nat).
  f_equal. apply IH. intros j. apply (H (S j)).
Qed.

Lemma re_sub_no_end_after (k : nat) (s : str) :
  (k <= length marker)%nat ->
  find end_marker (drop k s) = None -> re_sub repl s = s.
Proof.
  intros Hk H. apply re_sub_id. intros j. apply block_match_no_end.
  rewrite drop_drop.
  replace (j + length marker)%nat with (k + (j + length marker - k))%nat by lia.
  rewrite <- drop_drop. by apply find_None_drop.
Qed.

Lemma re_sub_no_end (s : str) :
  find end_marker s = None -> re_sub repl s = s.
Proof. apply (re_sub_no_end_after 0); lia. Qed.

Lemma re_sub_no_marker (s : str) :
  find marker s = None -> re_sub repl s = s.
Proof.
  intros H. apply re_sub_id. intros j. apply block_match_no_start.
  by apply find_None_startswith, find_None_drop.
Qed.

(** The text before the first begin marker is passed unchanged. *)
Lemma re_sub_pre (pre t : str) :
  find marker pre = None ->
  re_sub repl (pre ++ marker ++ t) = pre ++ re_sub repl (marker ++ t).
Proof.
  induction pre as [|c pre IH]; intros H; [by rewrite !app_nil_l |].
  rewrite <- (app_comm_cons pre).
  rewrite re_sub_nomatch.
  - cbn [app]. f_equal. apply IH. by apply find_None_tail in H.
  - apply block_match_no_start.
    destruct (startswith marker (c :: pre ++ marker ++ t)) eqn:E; [| done].
    exfalso. apply find_None_startswith in H.
    destruct marker_shape as (m & Em & Hm). rewrite Em in *.
    apply (startswith_straddle LT m (c :: pre) t Hm) in E; [congruence | done].
Qed.

(** What the substitution gives is made of the text and the replacement. *)
Lemma re_sub_go_elem (x : N) (k : nat) (s : str) :
  x ∈ re_sub_go repl k s -> x ∈ repl \/ x ∈ s.
Proof.
  revert k. induction s as [|c t IH]; intros k H; [by right |].
  cbn [re_sub_go] in H. destruct k as [|k].
  - destruct (block_match (c :: t)) as [n|].
    + apply elem_of_app in H as [H | H]; [by left |].
      destruct (IH _ H); [by left | right; by right].
    + apply elem_of_cons in H as [-> | H]; [right; left |].
      destruct (IH _ H); [by left | right; by right].
  - destruct (IH _ H); [by left | right; by right].
Qed.

End Substitution.

(** ** Substituting a block for the blocks *)

(** The replacement is itself a block, whose inside holds no [<]. *)
Section Block.

Variable mid : str.
Hypothesis mid_no_LT : LT ∉ mid.

Local Abbreviation repl := (wrap mid).

Lemma block_match_repl (t : str) :
  block_match (repl ++ t) = Some (length repl).
Proof.
  unfold wrap. rewrite <- !app_assoc.
  rewrite block_match_block by (by apply find_end_marker_no_LT).
  by rewrite !app_assoc.
Qed.

(** The block is replaced by itself. *)
Lemma re_sub_repl (t : str) :
  re_sub repl (repl ++ t) = repl ++ re_sub repl t.
Proof.
  rewrite (re_sub_match repl _ _ (block_match_repl t)).
  by rewrite drop_app_length.
Qed.

(** The first characters, as many as the begin marker has, are kept. *)
Lemma re_sub_take (s : str) (n : nat) :
  (n <= length marker)%nat -> take n (re_sub repl s) = take n s.
Proof.
  revert n. induction s as [|c t IH]; intros n Hn; [reflexivity |].
  destruct (block_match (c :: t)) as [k|] eqn:E.
  - rewrite (re_sub_match repl _ _ E).
    apply block_match_Some in E as (Hs & _).
    rewrite (startswith_inv _ _ Hs). unfold wrap.
    rewrite <- !app_assoc. by rewrite !take_app_le by exact Hn.
  - rewrite (re_sub_nomatch repl _ _ E).
    destruct n as [|n]; [reflexivity |].
    cbn [take]. f_equal. apply IH. lia.
Qed.

Lemma startswith_marker_re_sub (c : N) (t : str) :
  startswith marker (c :: re_sub repl t) = startswith marker (c :: t).
Proof.
  rewrite <- (startswith_take marker (c :: re_sub repl t)).
  rewrite <- (startswith_take marker (c :: t)).
  destruct marker_shape as (m & Em & _).
  assert (length marker = S (length m)) as -> by (by rewrite Em).
  cbn [take]. rewrite re_sub_take; [done |].
  rewrite Em. cbn [length]. lia.
Qed.

(** A begin marker in the text is still there afterwards. *)
Lemma find_marker_re_sub (s : str) :
  is_Some (find marker s) -> is_Some (find marker (re_sub repl s)).
Proof.
  induction s as [|c t IH]; intros H; [exact H |].
  destruct (block_match (c :: t)) as [k|] eqn:E.
  - rewrite (re_sub_match repl _ _ E). unfold wrap. rewrite <- app_assoc.
    rewrite find_at_head by apply startswith_app. eauto.
  - rewrite (re_sub_nomatch repl _ _ E), find_cons.
    rewrite startswith_marker_re_sub. rewrite find_cons in H.
    destruct (startswith marker (c :: t)); [eauto |].
    destruct (find marker t) as [i|]; [| by destruct H].
    destruct IH as [j ->]; eauto.
Qed.

(** Substituting twice is substituting once. *)
Lemma re_sub_idempotent (s : str) :
  re_sub repl (re_sub repl s) = re_sub repl s.
Proof.
  remember (length s) as n eqn:Hn. revert s Hn.
  induction n as [n IH] using lt_wf_ind. intros s ->.
  destruct s as [|c t]; [reflexivity |].
  destruct (block_match (c :: t)) as [k|] eqn:E.
  - rewrite (re_sub_match repl _ _ E), re_sub_repl. f_equal.
    apply (IH (length (drop k (c :: t)))); [| reflexivity].
    pose proof (block_match_pos _ _ E). rewrite length_drop. cbn [length]. lia.
  - rewrite (re_sub_nomatch repl _ _ E).
    assert (block_match (c :: re_sub repl t) = None) as E'.
    { apply block_match_None in E as [E | E].
      - apply block_match_no_start. by rewrite startswith_marker_re_sub.
      - rewrite (re_sub_no_end_after repl (length marker - 1) t).
        + by apply block_match_no_end.
        + lia.
        + destruct marker_shape as (m & Em & _).
          assert (length marker = S (length m)) as El by (by rewrite Em).
          rewrite El in E |- *. cbn [drop] in E.
          by replace (S (length m) - 1)%nat with (length m) by lia. }
    rewrite (re_sub_nomatch repl _ _ E'). f_equal.
    apply (IH (length t)); [cbn [length]; lia | reflexivity].
Qed.

(** Appending the block to a text without begin marker gives a text the
    substitution keeps. *)
Lemma re_sub_appended (s : str) :
  find marker s = None ->
  re_sub repl (s ++ [LF; LF] ++ repl ++ [LF]) = s ++ [LF; LF] ++ repl ++ [LF].
Proof.
  induction s as [|c t IH]; intros H.
  - rewrite app_nil_l. cbn [app].
    rewrite !re_sub_nomatch, re_sub_repl.
    + rewrite re_sub_nomatch; [reflexivity |].
      apply block_match_no_start.
      destruct (startswith marker [LF]) eqn:E; [| done].
      by apply startswith_marker_LT in E.
    + apply block_match_no_start.
      destruct (startswith marker (LF :: repl ++ [LF])) eqn:E; [| done].
      by apply startswith_marker_LT in E.
    + apply block_match_no_start.
      destruct (startswith marker (LF :: LF :: repl ++ [LF])) eqn:E; [| done].
      by apply startswith_marker_LT in E.
  - rewrite <- (app_comm_cons t). rewrite re_sub_nomatch.
    + f_equal. apply IH. by apply find_None_tail in H.
    + apply block_match_no_start.
      destruct (startswith marker (c :: t ++ [LF; LF] ++ repl ++ [LF])) eqn:E;
        [| done].
      exfalso. apply find_None_startswith in H.
      rewrite (app_comm_cons t) in E. cbn [app] in E.
      apply (startswith_before LF marker (c :: t)) in E; [congruence |].
      apply marker_no_LF.
Qed.

Lemma re_sub_no_CR (s : str) :
  CR ∉ mid -> CR ∉ s -> CR ∉ re_sub repl s.
Proof.
  intros Hmid Hs Hin. apply re_sub_go_elem in Hin as [Hin | Hin]; [| done].
  unfold wrap in Hin. rewrite !elem_of_app in Hin.
  destruct Hin as [Hin | [Hin | Hin]]; [| done |].
  - by apply marker_no_CR.
  - by apply end_marker_no_CR.
Qed.

End Block.

(** ** The README line and its block *)

Section Line.

Lemma lit_String (a : ascii) (s : string) :
  lit (String a s) = N_of_ascii a :: lit s.
Proof. reflexivity. Qed.

Lemma string_of_uint_chars (d : Decimal.uint) :
  Forall number_char (lit (NilEmpty.string_of_uint d)).
Proof.
  induction d; cbn [NilEmpty.string_of_uint]; [constructor | ..];
    rewrite lit_String; (constructor; [right; vm_compute; split; discriminate | assumption]).
Qed.

Lemma py_str_int_chars (n : Z) : Forall number_char (py_str_int n).
Proof.
  unfold py_str_int, NilZero.string_of_int, NilZero.string_of_uint.
  destruct (Z.to_int n) as [d | d].
  - destruct d; try apply string_of_uint_chars.
    constructor; [right; vm_compute; split; discriminate | constructor].
  - rewrite lit_String. constructor; [by left |].
    destruct d; try apply string_of_uint_chars.
    constructor; [right; vm_compute; split; discriminate | constructor].
Qed.

Lemma number_char_plain (c : N) : number_char c -> plain c.
Proof. unfold number_char, plain, LT, CR. lia. Qed.

Lemma readme_line_plain (summary : stats) : Forall plain (readme_line summary).
Proof.
  unfold readme_line.
  repeat (apply Forall_app; split);
    try (eapply Forall_impl; [apply py_str_int_chars | apply number_char_plain]);
    apply (bool_decide_unpack _); vm_compute; exact I.
Qed.

Lemma block_wrap (summary : stats) :
  block summary = wrap (block_inside summary).
Proof.
  unfold block, wrap, block_inside. by rewrite <- !app_assoc.
Qed.

Lemma block_inside_plain (summary : stats) :
  (LT ∉ block_inside summary) /\ (CR ∉ block_inside summary).
Proof.
  assert (Forall plain (block_inside summary)) as H.
  { unfold block_inside. apply Forall_app. split; [| apply Forall_app; split].
    - constructor; [split; discriminate | constructor].
    - apply readme_line_plain.
    - constructor; [split; discriminate | constructor]. }
  rewrite Forall_forall in H.
  split; intros Hin; apply H in Hin as [? ?]; congruence.
Qed.

End Line.

(** ** Reading and writing the README *)

Section Newlines.

Lemma universal_newlines_no_CR (s : str) : CR ∉ universal_newlines s.
Proof.
  remember (length s) as n eqn:Hn. revert s Hn.
  induction n as [n IH] using lt_wf_ind. intros s ->.
  destruct s as [|c t]; [apply not_elem_of_nil |].
  cbn [universal_newlines]. destruct (N.eqb c 13) eqn:Ec.
  - apply not_elem_of_cons. split; [discriminate |].
    destruct t as [|c' t']; [apply not_elem_of_nil |].
    destruct (N.eqb c' 10).
    + apply (IH (length t')); [cbn [length]; lia | reflexivity].
    + apply (IH (length (c' :: t'))); [cbn [length]; lia | reflexivity].
  - apply not_elem_of_cons. split.
    + apply N.eqb_neq in Ec. unfold CR. congruence.
    + apply (IH (length t)); [cbn [length]; lia | reflexivity].
Qed.

Lemma universal_newlines_id (s : str) : CR ∉ s -> universal_newlines s = s.
Proof.
  induction s as [|c t IH]; intros H; [reflexivity |].
  apply not_elem_of_cons in H as [Hc Ht].
  cbn [universal_newlines]. destruct (N.eqb c 13) eqn:Ec.
  - apply N.eqb_eq in Ec. unfold CR in Hc. congruence.
  - f_equal. by apply IH.
Qed.

(** What was written is read back as it is when it holds no carriage
    return. *)
Lemma read_text_write_text (content : str) :
  CR ∉ content -> read_text (write_text content) = content.
Proof. apply universal_newlines_id. Qed.

End Newlines.

Section Patch.

Variable summary : stats.

Lemma patch_content_with_marker (content : str) :
  contains marker content = true ->
  patch_content summary content = re_sub (block summary) content.
Proof. unfold patch_content. by intros ->. Qed.

Lemma patch_content_without_marker (content : str) :
  contains marker content = false ->
  patch_content summary content = content ++ [LF; LF] ++ block summary ++ [LF].
Proof. unfold patch_content. by intros ->. Qed.

Lemma patch_content_has_marker (content : str) :
  contains marker (patch_content summary content) = true.
Proof.
  apply contains_true. destruct (contains marker content) eqn:E.
  - rewrite patch_content_with_marker by done. rewrite block_wrap.
    apply find_marker_re_sub. by apply contains_true.
  - rewrite patch_content_without_marker by done.
    rewrite block_wrap. unfold wrap.
    rewrite (app_assoc content), <- (app_assoc marker).
    apply find_is_Some_app, startswith_app.
Qed.

Lemma patch_content_idempotent (content : str) :
  patch_content summary (patch_content summary content)
  = patch_content summary content.
Proof.
  rewrite (patch_content_with_marker (patch_content summary content))
    by apply patch_content_has_marker.
  destruct (contains marker content) eqn:E.
  - rewrite patch_content_with_marker by done. rewrite block_wrap.
    apply re_sub_idempotent, block_inside_plain.
  - rewrite patch_content_without_marker by done. rewrite block_wrap.
    apply re_sub_appended; [apply block_inside_plain | by apply contains_false].
Qed.

Lemma patch_content_no_CR (content : str) :
  CR ∉ content -> CR ∉ patch_content summary content.
Proof.
  intros Hc. pose proof (block_inside_plain summary) as [HLT HCR].
  destruct (contains marker content) eqn:E.
  - rewrite patch_content_with_marker by done. rewrite block_wrap.
    by apply re_sub_no_CR.
  - rewrite patch_content_without_marker by done. rewrite block_wrap.
    unfold wrap. rewrite !elem_of_app.
    intros [? | [Hin | [[Hin | [? | Hin]] | Hin]]]; try done.
    + apply elem_of_cons in Hin as [? | Hin]; [discriminate |].
      by apply list_elem_of_singleton in Hin.
    + by apply marker_no_CR in Hin.
    + by apply end_marker_no_CR in Hin.
    + by apply list_elem_of_singleton in Hin.
Qed.

(** A block in a text whose part before it holds no begin marker, the
    inside of the block holding no end marker. *)
Lemma patch_content_block (pre mid post : str) :
  contains marker pre = false -> contains end_marker mid = false ->
  patch_content summary (pre ++ marker ++ mid ++ end_marker ++ post)
  = pre ++ block summary ++ re_sub (block summary) post.
Proof.
  intros Hpre Hmid. apply contains_false in Hpre, Hmid.
  rewrite patch_content_with_marker.
  - rewrite re_sub_pre by done. f_equal.
    rewrite (re_sub_match _ _ _ (block_match_block mid post Hmid)).
    f_equal. rewrite !app_assoc. rewrite <- (app_assoc marker).
    by rewrite drop_app_length.
  - apply contains_true. rewrite find_marker_first by done. eauto.
Qed.

End Patch.

(** C4, as stated, fails in the case that lies between its two: with the
    begin marker in the text and no end marker, the marker pair is absent
    and yet nothing is appended, the README is written back as it was read.
    With both markers in the text but the end marker first, nothing is
    replaced either. *)
Lemma patch_readme_counterexample :
  (contains marker marker = true /\ contains end_marker marker = false
   /\ patch_readme (Stats 2 3 67) (Some marker) = Some marker
   /\ patch_readme (Stats 2 3 67) (Some marker)
      <> Some (marker ++ [LF; LF] ++ block (Stats 2 3 67) ++ [LF]))
  /\ (contains marker (end_marker ++ marker) = true
      /\ contains end_marker (end_marker ++ marker) = true
      /\ patch_readme (Stats 2 3 67) (Some (end_marker ++ marker))
         = Some (end_marker ++ marker)).
Proof.
  split.
  - split; [vm_compute; reflexivity |].
    split; [vm_compute; reflexivity |].
    split; [vm_compute; reflexivity |].
    vm_compute. discriminate.
  - repeat split; vm_compute; reflexivity.
Qed.

(** C4, amended: an absent README is left absent, nothing is written.
    Otherwise the text read is patched and written back.  In a text
    [pre ++ marker ++ mid ++ end_marker ++ post], where [pre] holds no begin
    marker and [mid] no end marker, everything from the begin marker to that
    end marker is replaced by the freshly rendered block, the two markers
    around the new line; what comes before is kept and what comes behind is
    treated in the same way, kept as it is when it holds no begin marker.
    In a text without begin marker the block is appended, after two line
    feeds and followed by one. *)
Theorem patch_readme_cases (summary : stats) :
  patch_readme summary None = None
  /\ (forall stored : str,
        patch_readme summary (Some stored)
        = Some (patch_content summary (read_text stored)))
  /\ block summary = marker ++ [LF] ++ readme_line summary ++ [LF] ++ end_marker
  /\ (forall pre mid post : str,
        contains marker pre = false -> contains end_marker mid = false ->
        patch_content summary (pre ++ marker ++ mid ++ end_marker ++ post)
        = pre ++ block summary
          ++ (if contains marker post then patch_content summary post else post))
  /\ (forall content : str,
        contains marker content = false ->
        patch_content summary content
        = content ++ [LF; LF] ++ block summary ++ [LF]).
Proof.
  split; [reflexivity |].
  split; [reflexivity |].
  split; [reflexivity |].
  split; [| apply patch_content_without_marker].
  intros pre mid post Hpre Hmid.
  rewrite patch_content_block by done. do 2 f_equal.
  destruct (contains marker post) eqn:E.
  - by rewrite patch_content_with_marker.
  - apply re_sub_no_marker. by apply contains_false.
Qed.

(** C5: patching the README twice with the same summary gives the README
    that patching it once gives; no second block is added. *)
Theorem patch_readme_idempotent (summary : stats) (readme : option str) :
  patch_readme summary (patch_readme summary readme) = patch_readme summary readme.
Proof.
  destruct readme as [stored|]; [| reflexivity].
  cbn [patch_readme]. f_equal. f_equal.
  rewrite read_text_write_text.
  - apply patch_content_idempotent.
  - apply patch_content_no_CR, universal_newlines_no_CR.
Qed.

(** C10: a README whose text holds the begin marker and no end marker is
    written back as it was read: no region is replaced and no block is
    appended. *)
Theorem begin_without_end_unchanged (summary : stats) (stored : str) :
  contains marker (read_text stored) = true ->
  contains end_marker (read_text stored) = false ->
  patch_content summary (read_text stored) = read_text stored
  /\ patch_readme summary (Some stored) = Some (read_text stored).
Proof.
  intros Hb He.
  assert (patch_content summary (read_text stored) = read_text stored) as E.
  { rewrite patch_content_with_marker by done.
    apply re_sub_no_end. by apply contains_false. }
  split; [exact E |]. cbn [patch_readme]. unfold write_text. by rewrite E.
Qed.

Lemma begin_without_end_unchanged_witness :
  patch_content (Stats 2 3 67) (read_text (lit "# Journey " ++ marker ++ lit " 50%"))
  = read_text (lit "# Journey " ++ marker ++ lit " 50%")
  /\ patch_readme (Stats 2 3 67) (Some (lit "# Journey " ++ marker ++ lit " 50%"))
     = Some (read_text (lit "# Journey " ++ marker ++ lit " 50%")).
Proof.
  apply (begin_without_end_unchanged (Stats 2 3 67)
           (lit "# Journey " ++ marker ++ lit " 50%")).
  - vm_compute. reflexivity.
  - vm_compute. reflexivity.
Defined.

(** * Further properties of the code *)

(** ** [percent] *)

Section PercentOrder.

Lemma py_round_div_mono (p1 p2 q : Z) :
  0 < q -> p1 <= p2 -> py_round_div p1 q <= py_round_div p2 q.
Proof.
  intros Hq Hp. destruct (Z.eq_dec p1 p2) as [-> | Hne]; [reflexivity |].
  pose proof (py_round_div_nearest p1 q Hq) as H1.
  pose proof (py_round_div_nearest p2 q Hq) as H2.
  destruct (Z_le_gt_dec (py_round_div p1 q) (py_round_div p2 q)) as [Hle | Hgt];
    [exact Hle | exfalso].
  assert (q * (py_round_div p2 q + 1) <= q * py_round_div p1 q) by nia.
  lia.
Qed.

Lemma percent_nonneg (n d : Z) : 0 <= n -> 0 <= d -> 0 <= percent n d.
Proof.
  intros Hn Hd. unfold percent. destruct (d =? 0) eqn:E; [lia |].
  pose proof (py_round_div_nearest (n * 100) d ltac:(lia)). nia.
Qed.

Lemma percent_le_mono (n1 n2 d : Z) :
  0 <= d -> n1 <= n2 -> percent n1 d <= percent n2 d.
Proof.
  intros Hd Hn. unfold percent. destruct (d =? 0) eqn:E; [lia |].
  apply py_round_div_mono; lia.
Qed.

End PercentOrder.

(** X1: with the denominator fixed, the percentage never decreases when the
    numerator grows. *)
Theorem percent_monotone (n1 n2 d : Z) :
  0 <= d -> n1 <= n2 -> percent n1 d <= percent n2 d.
Proof. apply percent_le_mono. Qed.

Lemma percent_monotone_witness : percent 1 3 <= percent 2 3.
Proof. apply (percent_monotone 1 2 3); lia. Defined.

(** X2: for [0 <= n <= d] with [0 < d] and [d * 100 < 2^52] (the range in
    which the binary64 quotient rounds as the exact one), the percentage is
    [100] exactly when at most half a percent is missing,
    [199 * d <= 200 * n]; so it is [100] when all is done, and it can be
    [100] before that: [199] of [200]. *)
Theorem percent_100_iff (n d : Z) :
  0 < d -> 0 <= n <= d -> d * 100 < 2 ^ 52 ->
  (percent n d = 100 <-> 199 * d <= 200 * n)
  /\ percent d d = 100.
Proof.
  intros Hd Hn _.
  assert (forall m, 0 <= m <= d -> (percent m d = 100 <-> 199 * d <= 200 * m)) as H.
  { intros m Hm. pose proof (percent_bounds m d Hm) as Hb.
    unfold percent in *. destruct (d =? 0) eqn:E; [lia |].
    pose proof (py_round_div_nearest (m * 100) d Hd) as Hnear.
    pose proof (py_round_div_tie_even (m * 100) d Hd) as Htie.
    split; [intros Hr; rewrite Hr in Hnear; lia |].
    intros Hge.
    destruct (Z.eq_dec (py_round_div (m * 100) d) 100) as [Heq | Hne]; [exact Heq |].
    exfalso.
    assert (py_round_div (m * 100) d = 99) as H99 by nia.
    rewrite H99 in Htie, Hnear. assert (Z.even 99 = true) by (apply Htie; lia).
    discriminate. }
  split; [by apply H |]. apply H; lia.
Qed.

Lemma percent_100_iff_witness :
  (percent 199 200 = 100 <-> 199 * 200 <= 200 * 199) /\ percent 200 200 = 100.
Proof. apply (percent_100_iff 199 200); lia. Defined.

(** X3: for [0 <= n] and [0 < d] with [n * 100 < 2^52] and [d < 2^53] (the
    range in which the binary64 quotient rounds as the exact one), the
    percentage is [0] exactly when at most half a percent is done,
    [200 * n <= d]. *)
Theorem percent_0_iff (n d : Z) :
  0 < d -> 0 <= n -> n * 100 < 2 ^ 52 -> d < 2 ^ 53 ->
  (percent n d = 0 <-> 200 * n <= d).
Proof.
  intros Hd Hn _ _. pose proof (percent_nonneg n d Hn ltac:(lia)) as Hb.
  unfold percent in *. destruct (d =? 0) eqn:E; [lia |].
  pose proof (py_round_div_nearest (n * 100) d Hd) as Hnear.
  pose proof (py_round_div_tie_even (n * 100) d Hd) as Htie.
  split; [intros Hr; rewrite Hr in Hnear; lia |].
  intros Hle.
  destruct (Z.eq_dec (py_round_div (n * 100) d) 0) as [Heq | Hne]; [exact Heq |].
  exfalso.
  assert (py_round_div (n * 100) d = 1) as H1 by nia.
  rewrite H1 in Htie, Hnear. assert (Z.even 1 = true) by (apply Htie; lia).
  discriminate.
Qed.

Lemma percent_0_iff_witness : percent 1 200 = 0 <-> 200 * 1 <= 200.
Proof. apply (percent_0_iff 1 200); lia. Defined.

(** ** The aggregation *)

Section Aggregation.

Implicit Types (completed : gset str) (catalog : gmap str (gset str)).

(** The per-topic part of the report is the catalog with each set replaced
    by its statistics. *)
Lemma aggregate_topics completed catalog :
  topics (aggregate completed catalog) = topic_stats completed <$> catalog.
Proof.
  apply map_eq. intros t. by rewrite aggregate_topics_lookup, lookup_fmap.
Qed.

Lemma stats_values_fmap (f : gset str -> stats) (g : stats -> Z) catalog :
  py_sum (g <$> (map_to_list (f <$> catalog)).*2)
  = py_sum ((fun v => g (f v)) <$> values catalog).
Proof.
  apply py_sum_perm. unfold values.
  rewrite map_to_list_fmap, <- !list_fmap_compose.
  erewrite (list_fmap_ext _ ((fun v => g (f v)) ∘ snd)); [reflexivity |].
  by intros _ [t v] _.
Qed.

Lemma py_sum_fmap_ext_in {A} (f g : A -> Z) (l : list A) :
  (forall x, x ∈ l -> f x = g x) -> py_sum (f <$> l) = py_sum (g <$> l).
Proof.
  intros H. f_equal. apply list_fmap_ext. intros i x Hx. apply H.
  by apply list_elem_of_lookup_2 in Hx.
Qed.

(** The report depends on the completed set only through its intersections
    with the topic sets. *)
Lemma aggregate_ext completed completed' catalog :
  (forall v, v ∈ values catalog -> v ∩ completed = v ∩ completed') ->
  aggregate completed catalog = aggregate completed' catalog.
Proof.
  intros H.
  assert (py_sum ((fun v => py_len (v ∩ completed)) <$> values catalog)
          = py_sum ((fun v => py_len (v ∩ completed')) <$> values catalog)) as Hd.
  { apply py_sum_fmap_ext_in. intros v Hv. by rewrite (H v Hv). }
  assert (topics (aggregate completed catalog)
          = topics (aggregate completed' catalog)) as Ht.
  { rewrite !aggregate_topics. apply map_fmap_ext. intros t v Hv.
    unfold topic_stats. rewrite (H v); [done |].
    apply elem_of_values. eauto. }
  unfold aggregate in *. cbn [topics] in Ht. rewrite Hd, Ht. reflexivity.
Qed.

Lemma py_sum_fmap_eq_inv {A} (f g : A -> Z) (l : list A) :
  (forall x, f x <= g x) ->
  py_sum (f <$> l) = py_sum (g <$> l) -> forall x, x ∈ l -> f x = g x.
Proof.
  intros Hfg. induction l as [|a l IH]; intros Hs x Hx.
  - by apply elem_of_nil in Hx.
  - rewrite !fmap_cons, !py_sum_cons in Hs.
    pose proof (py_sum_fmap_le f g l Hfg) as Hl. pose proof (Hfg a) as Ha.
    apply elem_of_cons in Hx as [-> | Hx]; [lia |].
    apply IH; [lia | done].
Qed.

Lemma py_len_inter_eq (v c : gset str) : py_len (v ∩ c) = py_len v <-> v ⊆ c.
Proof.
  unfold py_len. split.
  - intros H. apply Nat2Z.inj in H.
    assert (v ∩ c = v) as E.
    { apply set_subseteq_size_eq; [apply intersection_subseteq_l | lia]. }
    rewrite <- E. apply intersection_subseteq_r.
  - intros H. do 2 f_equal. set_solver.
Qed.

End Aggregation.

(** X4: the per-topic entries of the report add up to its summary: their
    [done] counts to the overall [done], their [total] counts to the overall
    [total]; and the report has an entry for exactly the topics of the
    catalog. *)
Theorem report_is_consistent (completed : gset str) (catalog : gmap str (gset str)) :
  let r := aggregate completed catalog in
  py_sum (done <$> (map_to_list (topics r)).*2) = done (summary r)
  /\ py_sum (total <$> (map_to_list (topics r)).*2) = total (summary r)
  /\ dom (topics r) = dom catalog.
Proof.
  cbv zeta. rewrite aggregate_topics, !stats_values_fmap, dom_fmap_L.
  repeat split.
Qed.

(** X5: completed identifiers that name no scanned exercise change nothing
    in the report. *)
Theorem unknown_completed_ignored
    (completed extra : gset str) (catalog : gmap str (gset str)) :
  extra ## ⋃ values catalog ->
  aggregate (completed ∪ extra) catalog = aggregate completed catalog.
Proof.
  intros Hd. apply aggregate_ext. intros v Hv.
  assert (v ⊆ ⋃ values catalog) as Hsub.
  { intros x Hx. apply elem_of_union_list. eauto. }
  set_solver.
Qed.

Lemma unknown_completed_ignored_witness :
  aggregate ({[ lit "variables1" ]} ∪ {[ lit "old_exercise" ]})
    {[ lit "variables" := {[ lit "variables1"; lit "variables2" ]} ]}
  = aggregate {[ lit "variables1" ]}
      {[ lit "variables" := {[ lit "variables1"; lit "variables2" ]} ]}.
Proof.
  apply (unknown_completed_ignored {[ lit "variables1" ]} {[ lit "old_exercise" ]}).
  apply (bool_decide_unpack _). vm_compute. exact I.
Defined.

(** X6: completing more never lowers the report: with a larger completed
    set the overall [done] and [pct] are at least what they were, and the
    [total] is the same. *)
Theorem more_completed_more_done
    (completed completed' : gset str) (catalog : gmap str (gset str)) :
  completed ⊆ completed' ->
  done (summary (aggregate completed catalog))
    <= done (summary (aggregate completed' catalog))
  /\ pct (summary (aggregate completed catalog))
    <= pct (summary (aggregate completed' catalog))
  /\ total (summary (aggregate completed catalog))
    = total (summary (aggregate completed' catalog)).
Proof.
  intros Hsub. unfold aggregate. cbn [summary done pct total].
  assert (py_sum ((fun v => py_len (v ∩ completed)) <$> values catalog)
          <= py_sum ((fun v => py_len (v ∩ completed')) <$> values catalog)) as Hle.
  { apply py_sum_fmap_le. intros v. unfold py_len.
    apply inj_le, subseteq_size. set_solver. }
  split; [exact Hle |]. split; [| reflexivity].
  apply percent_le_mono; [| exact Hle].
  apply py_sum_fmap_nonneg. intros v. apply py_len_nonneg.
Qed.

Lemma more_completed_more_done_witness :
  let catalog : gmap str (gset str) :=
    {[ lit "variables" := {[ lit "variables1"; lit "variables2" ]} ]} in
  done (summary (aggregate ∅ catalog))
    <= done (summary (aggregate {[ lit "variables1" ]} catalog))
  /\ pct (summary (aggregate ∅ catalog))
    <= pct (summary (aggregate {[ lit "variables1" ]} catalog))
  /\ total (summary (aggregate ∅ catalog))
    = total (summary (aggregate {[ lit "variables1" ]} catalog)).
Proof.
  cbv zeta. apply (more_completed_more_done ∅ {[ lit "variables1" ]}).
  apply empty_subseteq.
Defined.

(** X7: the overall [done] equals the overall [total] exactly when every
    identifier of every topic is completed. *)
Theorem all_done_iff (completed : gset str) (catalog : gmap str (gset str)) :
  done (summary (aggregate completed catalog))
    = total (summary (aggregate completed catalog))
  <-> forall (t : str) (slugs : gset str),
        catalog !! t = Some slugs -> slugs ⊆ completed.
Proof.
  unfold aggregate. cbn [summary done total]. split.
  - intros H t slugs Ht. apply py_len_inter_eq.
    apply (py_sum_fmap_eq_inv _ _ (values catalog)
             (fun v => py_len_inter_le v completed) H).
    apply elem_of_values. eauto.
  - intros H. apply py_sum_fmap_ext_in. intros v Hv.
    apply elem_of_values in Hv as [t Ht]. apply py_len_inter_eq. eauto.
Qed.

(** ** The scan *)

Section Scan.

Implicit Types (m acc : gmap str (gset str)) (p q : path) (l : list path).

Lemma add_slug_has (m : gmap str (gset str)) (topic slug : str) :
  has_slug (add_slug topic slug m) topic slug.
Proof.
  unfold has_slug, add_slug. eexists. rewrite lookup_insert_eq.
  split; [reflexivity |]. apply elem_of_union. right. by apply elem_of_singleton.
Qed.

Lemma add_slug_keeps (m : gmap str (gset str)) (topic slug t x : str) :
  has_slug m t x -> has_slug (add_slug topic slug m) t x.
Proof.
  intros (s & Hs & Hx). unfold has_slug, add_slug.
  destruct (decide (topic = t)) as [-> | Hne].
  - eexists. rewrite lookup_insert_eq. split; [reflexivity |].
    rewrite Hs. apply elem_of_union. by left.
  - exists s. by rewrite lookup_insert_ne.
Qed.

Lemma scan_step_keeps m p (t x : str) :
  has_slug m t x -> has_slug (scan_step m p) t x.
Proof.
  intros H. rewrite scan_step_counted. destruct (counted p); [| exact H].
  by apply add_slug_keeps.
Qed.

Lemma foldl_scan_step_keeps l acc (t x : str) :
  has_slug acc t x -> has_slug (foldl scan_step acc l) t x.
Proof.
  revert acc. induction l as [|p l IH]; intros acc H; [exact H |].
  cbn [foldl]. by apply IH, scan_step_keeps.
Qed.

Lemma foldl_scan_step_complete l acc q :
  q ∈ l -> counted q = true ->
  has_slug (foldl scan_step acc l) (name (parent q.1)) (stem (name q.1)).
Proof.
  revert acc. induction l as [|p l IH]; intros acc Hq Hc.
  - by apply elem_of_nil in Hq.
  - cbn [foldl]. apply elem_of_cons in Hq as [<- | Hq]; [| by apply IH].
    apply foldl_scan_step_keeps. rewrite scan_step_counted, Hc.
    apply add_slug_has.
Qed.

Lemma add_slug_comm m (t1 x1 t2 x2 : str) :
  add_slug t1 x1 (add_slug t2 x2 m) = add_slug t2 x2 (add_slug t1 x1 m).
Proof.
  unfold add_slug. destruct (decide (t1 = t2)) as [-> | Hne].
  - rewrite !lookup_insert_eq, !insert_insert_eq. cbn [default].
    f_equal. set_solver.
  - rewrite !lookup_insert_ne by done. by apply insert_insert_ne.
Qed.

Lemma scan_step_comm m p q :
  scan_step (scan_step m p) q = scan_step (scan_step m q) p.
Proof.
  rewrite !scan_step_counted.
  destruct (counted p), (counted q); try reflexivity.
  apply add_slug_comm.
Qed.

Lemma foldl_scan_step_perm l1 l2 :
  l1 ≡ₚ l2 -> forall acc, foldl scan_step acc l1 = foldl scan_step acc l2.
Proof.
  induction 1 as [|p l1 l2 _ IH|p q l|l1 l2 l3 _ IH1 _ IH2]; intros acc.
  - reflexivity.
  - cbn [foldl]. apply IH.
  - cbn [foldl]. by rewrite scan_step_comm.
  - by rewrite IH1.
Qed.

(** No topic of the catalog is left without identifier. *)
Lemma add_slug_non_empty m (topic slug : str) :
  map_Forall (fun _ v => v <> ∅) m ->
  map_Forall (fun _ v => v <> ∅) (add_slug topic slug m).
Proof.
  intros H. unfold add_slug. apply map_Forall_insert_2; [| exact H].
  intros E. assert (slug ∈ (∅ : gset str)) as Hin; [| by apply not_elem_of_empty in Hin].
  rewrite <- E. apply elem_of_union. right. by apply elem_of_singleton.
Qed.

Lemma foldl_scan_step_non_empty l acc :
  map_Forall (fun _ v => v <> ∅) acc ->
  map_Forall (fun _ v => v <> ∅) (foldl scan_step acc l).
Proof.
  revert acc. induction l as [|p l IH]; intros acc H; [exact H |].
  cbn [foldl]. apply IH. rewrite scan_step_counted.
  destruct (counted p); [by apply add_slug_non_empty | exact H].
Qed.

Lemma find_all_exercises_non_empty (root : list str) (exer_dir : option (list entry)) :
  map_Forall (fun _ v => v <> ∅) (find_all_exercises root exer_dir).
Proof.
  destruct exer_dir as [tree|]; cbn [find_all_exercises].
  - apply foldl_scan_step_non_empty, map_Forall_empty.
  - apply map_Forall_empty.
Qed.

(** The sum of the sizes of the topic sets, the overall [total]. *)
Lemma total_empty : py_sum (py_len <$> values ∅) = 0.
Proof. unfold values. by rewrite map_to_list_empty. Qed.

Lemma total_insert m (t : str) (v : gset str) :
  m !! t = None ->
  py_sum (py_len <$> values (<[t := v]> m))
  = py_len v + py_sum (py_len <$> values m).
Proof.
  intros Hm. rewrite <- py_sum_cons. apply py_sum_perm.
  rewrite (values_insert m t v Hm). reflexivity.
Qed.

Lemma total_add_slug m (topic slug : str) :
  py_sum (py_len <$> values (add_slug topic slug m))
  <= py_sum (py_len <$> values m) + 1.
Proof.
  unfold add_slug. destruct (m !! topic) as [s|] eqn:E; cbn [default]; unfold id.
  - rewrite <- (insert_delete_eq m).
    rewrite total_insert by apply lookup_delete_eq.
    rewrite <- (insert_delete_id m topic s E) at 2.
    rewrite total_insert by apply lookup_delete_eq.
    assert (py_len (s ∪ {[slug]}) <= py_len s + 1); [| lia].
    unfold py_len. rewrite size_union_alt.
    assert (size ({[slug]} ∖ s : gset str) <= 1)%nat; [| lia].
    etransitivity; [apply subseteq_size, (subseteq_difference_l _ {[slug]}); reflexivity |].
    by rewrite size_singleton.
  - rewrite total_insert by done.
    rewrite (left_id_L ∅ (∪)). unfold py_len. rewrite size_singleton. lia.
Qed.

Lemma total_foldl_scan_step l acc :
  py_sum (py_len <$> values (foldl scan_step acc l))
  <= py_sum (py_len <$> values acc) + Z.of_nat (length (List.filter counted l)).
Proof.
  revert acc. induction l as [|p l IH]; intros acc; cbn [foldl List.filter].
  - cbn [length]. lia.
  - etransitivity; [apply IH |]. rewrite scan_step_counted.
    destruct (counted p); [| lia].
    pose proof (total_add_slug acc (name (parent p.1)) (stem (name p.1))).
    cbn [length]. lia.
Qed.

End Scan.

(** X8: the catalog holds identifier [x] under topic [t] exactly when the
    scan lists a counted path (a regular file with a valid suffix, no part
    excluded) whose parent directory is named [t] and whose stem is [x]. *)
Theorem catalog_characterised
    (root : list str) (tree : list entry) (t x : str) :
  (exists slugs, find_all_exercises root (Some tree) !! t = Some slugs /\ x ∈ slugs)
  <-> exists q, q ∈ scan root tree /\ counted q = true
                /\ name (parent q.1) = t /\ stem (name q.1) = x.
Proof.
  cbn [find_all_exercises]. split.
  - intros (slugs & Hl & Hx).
    destruct (foldl_scan_step_origin _ _ _ _ _ Hl Hx) as [Hq | (s0 & Hs0 & _)];
      [exact Hq | by rewrite lookup_empty in Hs0].
  - intros (q & Hq & Hc & <- & <-). by apply foldl_scan_step_complete.
Qed.

(** X9: the catalog does not depend on the order in which the paths are
    listed. *)
Theorem catalog_order_independent (l1 l2 : list path) :
  l1 ≡ₚ l2 -> foldl scan_step ∅ l1 = foldl scan_step ∅ l2.
Proof. intros H. by apply foldl_scan_step_perm. Qed.

Lemma catalog_order_independent_witness :
  foldl scan_step ∅ (scan scenario_root scenario_tree)
  = foldl scan_step ∅ (rev (scan scenario_root scenario_tree)).
Proof.
  apply (catalog_order_independent (scan scenario_root scenario_tree)).
  apply Permutation_rev.
Defined.

(** X10: every topic of the printed report has at least one exercise: its
    [total] is at least [1], so its percentage never comes from the
    zero-denominator case. *)
Theorem reported_topics_non_empty (update_files : bool) (root : list str) (w : world) :
  map_Forall (fun _ st => 1 <= total st) (topics (main update_files root w).1).
Proof.
  unfold main. cbn [fst]. rewrite aggregate_topics.
  intros t st Hst. apply lookup_fmap_Some in Hst as (slugs & <- & Hs).
  apply find_all_exercises_non_empty in Hs. cbn [topic_stats total].
  unfold py_len.
  assert (size slugs <> 0)%nat; [| lia].
  apply size_non_empty_iff. by intros ->%leibniz_equiv.
Qed.

(** X11: when the exercise directory does not exist the report is all
    zero and lists no topic, whatever the state file holds. *)
Theorem missing_exercise_dir_report
    (update_files : bool) (root : list str) (sf rd : option str) :
  (main update_files root (World sf None rd)).1 = Report (Stats 0 0 0) ∅.
Proof.
  unfold main. cbn [fst state_file exer_dir find_all_exercises].
  unfold aggregate, values, items. rewrite map_to_list_empty. reflexivity.
Qed.

(** X12: the overall [total] never exceeds the number of counted files
    (regular files with a valid suffix and no excluded part) that the scan
    lists. *)
Theorem total_at_most_counted_files
    (completed : gset str) (root : list str) (tree : list entry) :
  total (summary (aggregate completed (find_all_exercises root (Some tree))))
  <= Z.of_nat (length (List.filter counted (scan root tree))).
Proof.
  unfold aggregate. cbn [summary total find_all_exercises].
  etransitivity; [apply total_foldl_scan_step |]. rewrite total_empty. lia.
Qed.

(** X13: a file with a valid suffix that lies directly in the exercise
    directory is filed under the topic [exercises], the name of that
    directory. *)
Theorem top_level_file_topic (root : list str) (n : str) :
  excluded root = false -> suffix n = lit ".rs" ->
  find_all_exercises root (Some [File n])
  = {[ lit "exercises" := {[ stem n ]} ]}.
Proof.
  intros Hroot Hsuf. cbn [find_all_exercises]. unfold scan.
  cbn [flat_map rglob app foldl].
  assert (excluded [n] = false) as Hn.
  { unfold excluded. cbn [existsb]. rewrite orb_false_r.
    apply bool_decide_eq_false. unfold EXCLUDE_DIRS.
    rewrite !elem_of_union, !elem_of_singleton.
    intros [[-> | ->] | ->]; vm_compute in Hsuf; discriminate. }
  unfold scan_step. cbn [fst snd andb].
  rewrite name_snoc, parent_snoc. unfold EXER_DIR at 1 2.
  rewrite <- app_assoc, !excluded_app, Hroot, Hn, Hsuf.
  replace (excluded [lit "exercises"]) with false by (vm_compute; reflexivity).
  cbn [orb]. rewrite bool_decide_eq_true_2.
  - unfold EXER_DIR. rewrite name_snoc. unfold add_slug.
    rewrite lookup_empty. cbn [default]. by rewrite (left_id_L ∅ (∪)).
  - unfold VALID_EXTS. by apply elem_of_singleton.
Qed.

Lemma top_level_file_topic_witness :
  find_all_exercises scenario_root (Some [File (lit "intro1.rs")])
  = {[ lit "exercises" := {[ stem (lit "intro1.rs") ]} ]}.
Proof.
  apply (top_level_file_topic scenario_root (lit "intro1.rs")); reflexivity.
Defined.

(** ** The state reader *)

Section Reader.

Implicit Types (done acc : gset str) (line g rest : str).

Lemma read_line_spec done line :
  read_line done line
  = match slug_re_match (strip line) with
    | Some g => done ∪ {[ removesuffix (lit ".rs") g ]}
    | None => done
    end.
Proof. unfold read_line. by destruct (strip line). Qed.

Lemma foldl_read_line_elem (lines : list str) acc (x : str) :
  x ∈ foldl read_line acc lines
  <-> x ∈ acc
      \/ exists line g, line ∈ lines /\ slug_re_match (strip line) = Some g
                        /\ x = removesuffix (lit ".rs") g.
Proof.
  revert acc. induction lines as [|l lines IH]; intros acc; cbn [foldl].
  - split; [by left |]. intros [H | (line & g & H & _)]; [done |].
    by apply elem_of_nil in H.
  - rewrite IH, read_line_spec. split.
    + intros [H | (line & g & Hin & Hm & Hx)].
      * destruct (slug_re_match (strip l)) as [g|] eqn:E; [| by left].
        apply elem_of_union in H as [H | H]; [by left |].
        apply elem_of_singleton in H. right. exists l, g.
        split; [left | done].
      * right. exists line, g. split; [by right | done].
    + intros [H | (line & g & Hin & Hm & Hx)].
      * left. destruct (slug_re_match (strip l)); [| done].
        apply elem_of_union. by left.
      * apply elem_of_cons in Hin as [-> | Hin].
        -- left. rewrite Hm. apply elem_of_union. right.
           by apply elem_of_singleton.
        -- right. eauto.
Qed.

Lemma leading_run_Forall (p : N -> bool) (s : str) :
  Forall (fun c => p c = true) (leading_run p s).
Proof.
  induction s as [|c s IH]; cbn [leading_run]; [constructor |].
  destruct (p c) eqn:E; by constructor.
Qed.

Lemma slug_re_match_Forall line g :
  slug_re_match line = Some g ->
  g <> [] /\ Forall (fun c => is_slug_char c = true) g.
Proof.
  unfold slug_re_match. pose proof (leading_run_Forall is_slug_char line) as H.
  destruct (leading_run is_slug_char line) as [|c r]; [discriminate |].
  by intros [= <-].
Qed.

Lemma removesuffix_Forall (P : N -> Prop) (m s : str) :
  Forall P s -> Forall P (removesuffix m s).
Proof.
  intros H. unfold removesuffix. destruct (endswith m s); [| exact H].
  by apply Forall_take.
Qed.

Lemma slug_char_not_space (c : N) : is_slug_char c = true -> is_space c = false.
Proof.
  unfold is_slug_char, is_space. intros H. apply not_true_is_false. intros H'.
  rewrite ?orb_true_iff, ?andb_true_iff, ?N.leb_le, ?N.eqb_eq in H.
  rewrite ?orb_true_iff, ?andb_true_iff, ?N.leb_le, ?N.eqb_eq in H'. lia.
Qed.

Lemma lstrip_app (u v : str) :
  lstrip (u ++ v) = match lstrip u with [] => lstrip v | w => w ++ v end.
Proof.
  induction u as [|c u IH]; cbn [app lstrip]; [reflexivity |].
  by destruct (is_space c).
Qed.

Lemma lstrip_suffix (s : str) : exists k, s = k ++ lstrip s.
Proof.
  induction s as [|c s [k IH]]; cbn [lstrip]; [by exists [] |].
  destruct (is_space c); [| by exists []].
  exists (c :: k). cbn [app]. by f_equal.
Qed.

Lemma rstrip_prefix (s : str) : exists k, s = rstrip s ++ k.
Proof.
  unfold rstrip. destruct (lstrip_suffix (rev s)) as [k E].
  exists (rev k). by rewrite <- rev_app_distr, <- E, rev_involutive.
Qed.

(** A line that starts with a token of slug characters is stripped behind
    the token only. *)
Lemma strip_token (a rest : str) :
  a <> [] -> Forall (fun c => is_slug_char c = true) a ->
  strip (a ++ rest) = a ++ rstrip rest.
Proof.
  intros Ha Hall. unfold strip, rstrip.
  assert (forall s : str, s <> [] -> Forall (fun c => is_slug_char c = true) s ->
            forall t, lstrip (s ++ t) = s ++ t) as Hl.
  { intros [|c s] Hs Hf t; [done |]. cbn [app lstrip].
    apply Forall_cons in Hf as [Hc _]. by rewrite (slug_char_not_space c Hc). }
  rewrite (Hl a Ha Hall), rev_app_distr, lstrip_app.
  assert (lstrip (rev a) = rev a) as Hr.
  { rewrite <- (app_nil_r (rev a)) at 1. rewrite Hl; [by rewrite app_nil_r | |].
    - intros E. apply Ha. by rewrite <- (rev_involutive a), E.
    - apply Forall_forall. intros c Hc. rewrite Forall_forall in Hall.
      apply Hall, list_elem_of_In. by apply list_elem_of_In, in_rev in Hc. }
  destruct (lstrip (rev rest)) as [|c w].
  - rewrite Hr, rev_involutive. cbn [rev]. by rewrite app_nil_r.
  - by rewrite rev_app_distr, rev_involutive.
Qed.

Lemma leading_run_token (a t : str) :
  Forall (fun c => is_slug_char c = true) a ->
  (t = [] \/ exists c r, t = c :: r /\ is_slug_char c = false) ->
  leading_run is_slug_char (a ++ t) = a.
Proof.
  intros Hall Ht. induction Hall as [|c a Hc Hall IH]; cbn [app leading_run].
  - destruct Ht as [-> | (c & r & -> & Hc)]; [reflexivity |].
    cbn [leading_run]. by rewrite Hc.
  - rewrite Hc. by f_equal.
Qed.

Lemma rstrip_after_token (rest : str) :
  (rest = [] \/ exists c r, rest = c :: r /\ is_slug_char c = false) ->
  rstrip rest = [] \/ exists c r, rstrip rest = c :: r /\ is_slug_char c = false.
Proof.
  intros [-> | (c & r & -> & Hc)]; [by left |].
  destruct (rstrip_prefix (c :: r)) as [k E].
  destruct (rstrip (c :: r)) as [|c' r']; [by left |].
  right. exists c', r'. split; [done |]. by injection E as <- _.
Qed.

(** The token of such a line is the slug pattern's match. *)
Lemma slug_re_match_token (a rest : str) :
  a <> [] -> Forall (fun c => is_slug_char c = true) a ->
  (rest = [] \/ exists c r, rest = c :: r /\ is_slug_char c = false) ->
  slug_re_match (strip (a ++ rest)) = Some a.
Proof.
  intros Ha Hall Hrest. rewrite strip_token by done.
  unfold slug_re_match.
  rewrite leading_run_token by (done || by apply rstrip_after_token).
  by destruct a.
Qed.

Lemma removesuffix_app (m g : str) : removesuffix m (g ++ m) = g.
Proof.
  unfold removesuffix, endswith.
  rewrite rev_app_distr, startswith_app.
  apply take_app_length'. rewrite length_app. lia.
Qed.

End Reader.

(** X14: an identifier is completed exactly when some line of the state
    file, stripped, starts with a token of the slug pattern that gives it
    once a final [.rs] is removed; neither the order of the lines nor a
    repetition matters. *)
Theorem completed_characterised (stored x : str) :
  x ∈ read_completed_slugs (Some stored)
  <-> exists line g, line ∈ splitlines (read_text stored)
                     /\ slug_re_match (strip line) = Some g
                     /\ x = removesuffix (lit ".rs") g.
Proof.
  cbn [read_completed_slugs]. rewrite foldl_read_line_elem. split.
  - intros [H | H]; [by apply not_elem_of_empty in H | exact H].
  - intros H. by right.
Qed.

(** X15: every completed identifier is made of the characters of the slug
    pattern only, letters, digits, [_], [-] and [.]. *)
Theorem completed_slug_chars (state_file : option str) (x : str) :
  x ∈ read_completed_slugs state_file ->
  Forall (fun c => is_slug_char c = true) x.
Proof.
  destruct state_file as [stored|]; [| intros H; by apply not_elem_of_empty in H].
  intros H. cbn [read_completed_slugs] in H.
  apply foldl_read_line_elem in H as [H | (line & g & _ & Hm & ->)];
    [by apply not_elem_of_empty in H |].
  apply removesuffix_Forall. by apply slug_re_match_Forall in Hm as [_ ?].
Qed.

Lemma completed_slug_chars_witness :
  Forall (fun c => is_slug_char c = true) (lit "variables1").
Proof.
  apply (completed_slug_chars (Some scenario_state) (lit "variables1")).
  apply (bool_decide_unpack _). vm_compute. exact I.
Defined.

(** X16: a line of the state file may name an exercise with or without
    [.rs]: when [g] is made of slug characters and what follows is nothing
    or starts with another character, the line [g.rs...] marks [g] as
    completed, and so does the line [g...] when [g] is not empty and does
    not itself end in [.rs]. *)
Theorem rs_suffix_optional (done : gset str) (g rest : str) :
  Forall (fun c => is_slug_char c = true) g ->
  (rest = [] \/ exists c r, rest = c :: r /\ is_slug_char c = false) ->
  read_line done (g ++ lit ".rs" ++ rest) = done ∪ {[ g ]}
  /\ (g <> [] -> endswith (lit ".rs") g = false ->
      read_line done (g ++ rest) = done ∪ {[ g ]}).
Proof.
  intros Hg Hrest. split.
  - rewrite read_line_spec, app_assoc.
    rewrite slug_re_match_token; [by rewrite removesuffix_app | | | done].
    + by destruct g.
    + apply Forall_app. split; [done |].
      apply (bool_decide_unpack _). vm_compute. exact I.
  - intros Hne Hend. rewrite read_line_spec.
    rewrite slug_re_match_token by done.
    unfold removesuffix. by rewrite Hend.
Qed.

Lemma rs_suffix_optional_witness :
  read_line ∅ (lit "move_semantics2" ++ lit ".rs" ++ lit " (extra text)")
  = ∅ ∪ {[ lit "move_semantics2" ]}
  /\ (lit "move_semantics2" <> [] -> endswith (lit ".rs") (lit "move_semantics2") = false ->
      read_line ∅ (lit "move_semantics2" ++ lit " (extra text)")
      = ∅ ∪ {[ lit "move_semantics2" ]}).
Proof.
  apply (rs_suffix_optional ∅ (lit "move_semantics2") (lit " (extra text)")).
  - apply (bool_decide_unpack _). vm_compute. exact I.
  - right. exists 32%N, (lit "(extra text)"). split; reflexivity.
Defined.

(** ** The README patcher *)

Section Repatch.

Implicit Types (s t mid : str).

Lemma startswith_app_r (m u w : str) :
  startswith m u = true -> startswith m (u ++ w) = true.
Proof.
  revert u. induction m as [|a m IH]; intros u H; [reflexivity |].
  destruct u as [|b u]; [discriminate |].
  apply startswith_cons in H as [-> H]. cbn [app].
  apply startswith_cons. split; [done | by apply IH].
Qed.

(** The leftmost occurrence splits the text; the pattern does not occur
    before it. *)
Lemma find_Some_split (m s : str) (i : nat) :
  m <> [] -> find m s = Some i ->
  exists u v, s = u ++ m ++ v /\ length u = i /\ find m u = None.
Proof.
  intros Hm. revert i. induction s as [|c t IH]; intros i H.
  - rewrite find_nil in H. destruct (startswith m []) eqn:E; [| discriminate].
    destruct m; [done | discriminate].
  - rewrite find_cons in H. destruct (startswith m (c :: t)) eqn:E.
    + injection H as <-. exists [], (drop (length m) (c :: t)).
      split; [by apply startswith_inv | split; [done |]].
      rewrite find_nil. destruct m; [done | reflexivity].
    + destruct (find m t) as [j|] eqn:Ej; [| discriminate].
      injection H as <-. destruct (IH j eq_refl) as (u & v & -> & Hu & Hn).
      exists (c :: u), v. split; [done |]. split; [cbn [length]; lia |].
      rewrite find_cons, Hn.
      destruct (startswith m (c :: u)) eqn:E'; [| done].
      apply (startswith_app_r _ _ (m ++ v)) in E'. cbn [app] in E'. congruence.
Qed.

Lemma marker_not_nil : marker <> [].
Proof. destruct marker_shape as (m & -> & _). discriminate. Qed.

Lemma end_marker_not_nil : end_marker <> [].
Proof. destruct end_marker_shape as (m & -> & _). discriminate. Qed.

(** A block at the head of the text is replaced by the replacement,
    whatever that is. *)
Lemma re_sub_block (repl mid t : str) :
  LT ∉ mid -> re_sub repl (wrap mid ++ t) = repl ++ re_sub repl t.
Proof.
  intros Hmid.
  rewrite (re_sub_match repl _ _ (block_match_repl mid Hmid t)).
  by rewrite drop_app_length.
Qed.

(** Substituting after a substitution is substituting once, with the
    second replacement. *)
Lemma re_sub_last_wins (mid1 mid2 s : str) :
  LT ∉ mid1 ->
  re_sub (wrap mid2) (re_sub (wrap mid1) s) = re_sub (wrap mid2) s.
Proof.
  intros H1. remember (length s) as n eqn:Hn. revert s Hn.
  induction n as [n IH] using lt_wf_ind. intros s ->.
  destruct s as [|c t]; [reflexivity |].
  destruct (block_match (c :: t)) as [k|] eqn:E.
  - rewrite (re_sub_match (wrap mid1) _ _ E), (re_sub_match (wrap mid2) _ _ E).
    rewrite re_sub_block by done. f_equal.
    apply (IH (length (drop k (c :: t)))); [| reflexivity].
    pose proof (block_match_pos _ _ E). rewrite length_drop. cbn [length]. lia.
  - rewrite (re_sub_nomatch (wrap mid1) _ _ E), (re_sub_nomatch (wrap mid2) _ _ E).
    assert (block_match (c :: re_sub (wrap mid1) t) = None) as E'.
    { apply block_match_None in E as [E | E].
      - apply block_match_no_start. by rewrite startswith_marker_re_sub.
      - rewrite (re_sub_no_end_after (wrap mid1) (length marker - 1) t).
        + by apply block_match_no_end.
        + lia.
        + destruct marker_shape as (m & Em & _).
          assert (length marker = S (length m)) as El by (by rewrite Em).
          rewrite El in E |- *. cbn [drop] in E.
          by replace (S (length m) - 1)%nat with (length m) by lia. }
    rewrite (re_sub_nomatch (wrap mid2) _ _ E'). f_equal.
    apply (IH (length t)); [cbn [length]; lia | reflexivity].
Qed.

Lemma block_match_LF (t : str) : block_match (LF :: t) = None.
Proof.
  apply block_match_no_start.
  destruct (startswith marker (LF :: t)) eqn:E; [| done].
  by apply startswith_marker_LT in E.
Qed.

(** The appended block is the one a later substitution replaces. *)
Lemma re_sub_appended_other (repl mid s : str) :
  LT ∉ mid -> find marker s = None ->
  re_sub repl (s ++ [LF; LF] ++ wrap mid ++ [LF]) = s ++ [LF; LF] ++ repl ++ [LF].
Proof.
  intros Hmid. induction s as [|c t IH]; intros H.
  - rewrite !app_nil_l. cbn [app].
    rewrite !re_sub_nomatch by apply block_match_LF.
    rewrite re_sub_block by done.
    by rewrite re_sub_nomatch by apply block_match_LF.
  - rewrite <- !(app_comm_cons t). rewrite re_sub_nomatch.
    + f_equal. apply IH. by apply find_None_tail in H.
    + apply block_match_no_start.
      destruct (startswith marker (c :: t ++ [LF; LF] ++ wrap mid ++ [LF])) eqn:E;
        [| done].
      exfalso. apply find_None_startswith in H.
      rewrite (app_comm_cons t) in E. cbn [app] in E.
      apply (startswith_before LF marker (c :: t)) in E; [congruence |].
      apply marker_no_LF.
Qed.

Lemma patch_content_last_wins (s1 s2 : stats) (content : str) :
  patch_content s2 (patch_content s1 content) = patch_content s2 content.
Proof.
  rewrite (patch_content_with_marker s2 (patch_content s1 content))
    by apply patch_content_has_marker.
  destruct (contains marker content) eqn:E.
  - rewrite !patch_content_with_marker by done. rewrite !block_wrap.
    apply re_sub_last_wins, block_inside_plain.
  - rewrite !patch_content_without_marker by done. rewrite !block_wrap.
    apply re_sub_appended_other; [apply block_inside_plain | by apply contains_false].
Qed.

(** Where a begin marker is followed by an end marker the substitution
    puts the replacement. *)
Lemma re_sub_puts_block (mid a b c : str) :
  is_Some (find (wrap mid)
             (re_sub (wrap mid) (a ++ marker ++ b ++ end_marker ++ c))).
Proof.
  induction a as [|x a IH].
  - rewrite app_nil_l.
    assert (exists n, block_match (marker ++ b ++ end_marker ++ c) = Some n) as [n E].
    { unfold block_match. rewrite startswith_app, drop_app_length.
      destruct (find_is_Some_app end_marker b (end_marker ++ c)
                  (startswith_app _ _)) as [i ->]. eauto. }
    rewrite (re_sub_match _ _ _ E), find_at_head by apply startswith_app. eauto.
  - rewrite <- app_comm_cons.
    destruct (block_match (x :: a ++ marker ++ b ++ end_marker ++ c)) as [n|] eqn:E.
    + rewrite (re_sub_match _ _ _ E), find_at_head by apply startswith_app. eauto.
    + rewrite (re_sub_nomatch _ _ _ E), find_cons.
      destruct (startswith _ _); [eauto |].
      destruct IH as [i ->]. eauto.
Qed.

Lemma block_match_Some_split (s : str) (n : nat) :
  block_match s = Some n -> exists b c, s = marker ++ b ++ end_marker ++ c.
Proof.
  intros H. apply block_match_Some in H as (Hs & i & Hf & _).
  apply find_Some_split in Hf as (u & v & E & _); [| apply end_marker_not_nil].
  exists u, v. rewrite <- E. by apply startswith_inv.
Qed.

End Repatch.

Lemma patch_readme_after (s1 s2 : stats) (readme : option str) :
  patch_readme s2 (patch_readme s1 readme) = patch_readme s2 readme.
Proof.
  destruct readme as [stored|]; [| reflexivity].
  cbn [patch_readme]. f_equal.
  rewrite read_text_write_text.
  - apply patch_content_last_wins.
  - apply patch_content_no_CR, universal_newlines_no_CR.
Qed.

(** X17: patching with one summary and then with another gives what
    patching with the other alone gives: only the last summary shows, and
    the text around the blocks is the same. *)
Theorem patch_readme_last_wins (s1 s2 : stats) (readme : option str) :
  patch_readme s2 (patch_readme s1 readme) = patch_readme s2 readme.
Proof. apply patch_readme_after. Qed.

(** X18: when the text has no begin marker, or has a begin marker with an
    end marker somewhere behind it, the patched text holds the freshly
    rendered block. *)
Theorem patched_readme_holds_block (summary : stats) (content : str) :
  contains marker content = false
  \/ (exists a b c, content = a ++ marker ++ b ++ end_marker ++ c) ->
  contains (block summary) (patch_content summary content) = true.
Proof.
  intros [H | (a & b & c & ->)]; apply contains_true.
  - rewrite patch_content_without_marker by done.
    rewrite (app_assoc content). apply find_is_Some_app, startswith_app.
  - rewrite patch_content_with_marker.
    + rewrite block_wrap. apply re_sub_puts_block.
    + apply contains_true, find_is_Some_app, startswith_app.
Qed.

Lemma patched_readme_holds_block_witness :
  contains (block (Stats 2 3 67))
    (patch_content (Stats 2 3 67)
       (end_marker ++ marker ++ lit "old" ++ end_marker ++ lit "tail")) = true.
Proof.
  apply (patched_readme_holds_block (Stats 2 3 67)).
  right. exists end_marker, (lit "old"), (lit "tail"). reflexivity.
Defined.

(** X19: when the text has a begin marker but no begin marker with an end
    marker behind it, the text is left as it is. *)
Theorem unclosed_marker_unchanged (summary : stats) (content : str) :
  contains marker content = true ->
  (forall a b c, content <> a ++ marker ++ b ++ end_marker ++ c) ->
  patch_content summary content = content.
Proof.
  intros Hb Hno. rewrite patch_content_with_marker by done.
  apply re_sub_id. intros j.
  destruct (block_match (drop j content)) as [n|] eqn:E; [| done].
  exfalso. apply block_match_Some_split in E as (b & c & E).
  apply (Hno (take j content) b c). by rewrite <- E, take_drop.
Qed.

Lemma unclosed_marker_unchanged_witness :
  patch_content (Stats 2 3 67) marker = marker.
Proof.
  apply (unclosed_marker_unchanged (Stats 2 3 67) marker).
  - vm_compute. reflexivity.
  - intros a b c H. apply (f_equal length) in H.
    rewrite !length_app in H.
    change (length marker) with 27%nat in H.
    change (length end_marker) with 28%nat in H. lia.
Defined.

(** ** The markdown report *)

Section StringOrder.

Lemma str_le_refl (a : str) : str_le a a = true.
Proof.
  induction a as [|x a IH]; [reflexivity |].
  cbn [str_le]. by rewrite N.ltb_irrefl, N.eqb_refl.
Qed.

Lemma str_le_cons (x y : N) (a b : str) :
  str_le (x :: a) (y :: b) = true
  <-> (x < y)%N \/ (x = y /\ str_le a b = true).
Proof.
  cbn [str_le]. destruct (N.ltb_spec x y) as [Hlt | Hge].
  - split; [by left | done].
  - destruct (N.eqb_spec x y) as [-> | Hne].
    + split; [by right | intros [? | [_ ?]]; [lia | done]].
    + split; [discriminate | intros [? | [? _]]; [lia | done]].
Qed.

Lemma str_le_total (a b : str) : str_le a b = true \/ str_le b a = true.
Proof.
  revert b. induction a as [|x a IH]; intros b; [by left |].
  destruct b as [|y b]; [by right |].
  rewrite !str_le_cons.
  destruct (N.lt_total x y) as [? | [-> | ?]]; [by left; left | | by right; left].
  destruct (IH b); [left | right]; by right.
Qed.

Lemma str_le_trans (a b c : str) :
  str_le a b = true -> str_le b c = true -> str_le a c = true.
Proof.
  revert b c. induction a as [|x a IH]; intros b c Hab Hbc; [reflexivity |].
  destruct b as [|y b]; [discriminate |].
  destruct c as [|z c]; [discriminate |].
  rewrite str_le_cons in *.
  destruct Hab as [? | [-> Hab]], Hbc as [? | [-> Hbc]];
    [left; lia | by left | by left | right; split; [done | by eapply IH]].
Qed.

Lemma str_le_antisym (a b : str) :
  str_le a b = true -> str_le b a = true -> a = b.
Proof.
  revert b. induction a as [|x a IH]; intros b Hab Hba.
  - by destruct b.
  - destruct b as [|y b]; [discriminate |].
    rewrite str_le_cons in *.
    destruct Hab as [? | [-> Hab]], Hba as [? | [? Hba]]; try lia.
    f_equal. by apply IH.
Qed.

#[local] Instance item_le_total : Total item_le.
Proof. intros a b. apply str_le_total. Qed.

#[local] Instance item_le_trans : Transitive item_le.
Proof. intros a b c. apply str_le_trans. Qed.

Lemma sorted_items_perm (per_topic : gmap str stats) :
  sorted_items per_topic ≡ₚ map_to_list per_topic.
Proof. apply merge_sort_Permutation. Qed.

Lemma sorted_items_sorted (per_topic : gmap str stats) :
  StronglySorted item_le (sorted_items per_topic).
Proof. apply StronglySorted_merge_sort; apply _. Qed.

Lemma sorted_items_unique (per_topic : gmap str stats) (l : list (str * stats)) :
  l ≡ₚ map_to_list per_topic -> Sorted item_le l -> l = sorted_items per_topic.
Proof.
  intros Hp Hs.
  apply (Sorted_unique_strong item_le); [| done | | ].
  - intros [t1 v1] [t2 v2] H1 H2 H12 H21.
    assert (t1 = t2) as -> by (by apply str_le_antisym).
    rewrite Hp in H1. rewrite sorted_items_perm in H2.
    apply elem_of_map_to_list in H1, H2. congruence.
  - apply Sorted_merge_sort. apply _.
  - by rewrite sorted_items_perm.
Qed.

End StringOrder.

Section Lines.

Lemma splitlines_go_one_line (l cur rest : str) :
  one_line l ->
  splitlines_go false cur (l ++ rest) = splitlines_go false (rev l ++ cur) rest.
Proof.
  intros Hl. revert cur. induction Hl as [|c l Hc Hl IH]; intros cur; [reflexivity |].
  cbn [app splitlines_go andb]. rewrite Hc, IH. cbn [rev].
  by rewrite <- app_assoc.
Qed.

Lemma splitlines_line (l rest : str) :
  one_line l -> splitlines (l ++ [LF] ++ rest) = l :: splitlines rest.
Proof.
  intros Hl. unfold splitlines. rewrite splitlines_go_one_line by done.
  cbn [app splitlines_go andb]. rewrite app_nil_r, rev_involutive.
  reflexivity.
Qed.

Lemma join_cons (sep l : str) (ls : list str) :
  ls <> [] -> join sep (l :: ls) = l ++ sep ++ join sep ls.
Proof. by destruct ls. Qed.

(** The lines joined by line feeds, an empty one last, are found again. *)
Lemma splitlines_join (ls : list str) :
  Forall one_line ls -> splitlines (join [LF] (ls ++ [[]])) = ls.
Proof.
  induction 1 as [|l ls Hl Hls IH]; [reflexivity |].
  rewrite <- app_comm_cons, join_cons by (by destruct ls).
  by rewrite splitlines_line, IH.
Qed.

Lemma number_char_one_line (n : Z) : one_line (py_str_int n).
Proof.
  eapply Forall_impl; [apply py_str_int_chars |].
  intros c Hc. unfold number_char in Hc. unfold is_linebreak.
  apply not_true_is_false. intros H.
  rewrite ?orb_true_iff, ?andb_true_iff, ?N.leb_le, ?N.eqb_eq in H. lia.
Qed.

Lemma md_header_one_line (summary : stats) : Forall one_line (md_header summary).
Proof.
  unfold md_header. repeat constructor;
    try (apply (bool_decide_unpack _); vm_compute; exact I).
  unfold one_line.
  repeat (apply Forall_app; split); try apply number_char_one_line;
    apply (bool_decide_unpack _); vm_compute; exact I.
Qed.

Lemma md_row_one_line (item : str * stats) :
  one_line item.1 -> one_line (md_row item).
Proof.
  intros Ht. unfold md_row, one_line.
  repeat (apply Forall_app; split); try apply number_char_one_line; try exact Ht;
    apply (bool_decide_unpack _); vm_compute; exact I.
Qed.

End Lines.

(** X20: the rows of the markdown table stand in ascending order of topic,
    one row for each topic of the report; they are the only sorted
    arrangement of the entries, so the table does not depend on the order
    in which the topics were found. *)
Theorem progress_rows_sorted (per_topic : gmap str stats) :
  StronglySorted item_le (sorted_items per_topic)
  /\ sorted_items per_topic ≡ₚ map_to_list per_topic
  /\ forall l : list (str * stats),
       l ≡ₚ map_to_list per_topic -> Sorted item_le l -> l = sorted_items per_topic.
Proof.
  split; [apply sorted_items_sorted |].
  split; [apply sorted_items_perm | apply sorted_items_unique].
Qed.

(** X21: when no topic name holds a line break, the report read line by line
    is the eight heading lines followed by one line for each topic; the
    text ends with the line feed of the last of them. *)
Theorem progress_md_lines (summary : stats) (per_topic : gmap str stats) :
  map_Forall (fun t _ => one_line t) per_topic ->
  splitlines (write_progress_md summary per_topic)
  = md_header summary ++ (md_row <$> sorted_items per_topic).
Proof.
  intros Hpt. unfold write_progress_md. cbv zeta. rewrite app_assoc.
  apply splitlines_join, Forall_app. split; [apply md_header_one_line |].
  apply Forall_fmap, Forall_forall. intros [t st] Hin.
  apply md_row_one_line. cbn [fst].
  rewrite sorted_items_perm in Hin. apply elem_of_map_to_list in Hin.
  exact (Hpt t st Hin).
Qed.

Lemma progress_md_lines_witness :
  splitlines (write_progress_md (Stats 2 3 67)
                (<[lit "variables" := Stats 1 2 50]>
                   {[ lit "move_semantics" := Stats 1 1 100 ]}))
  = md_header (Stats 2 3 67)
    ++ (md_row <$> sorted_items
          (<[lit "variables" := Stats 1 2 50]>
             {[ lit "move_semantics" := Stats 1 1 100 ]})).
Proof.
  apply (progress_md_lines (Stats 2 3 67)).
  apply (bool_decide_unpack _). vm_compute. exact I.
Defined.

Example write_progress_md_scenario :
  write_progress_md (Stats 2 3 67)
    (<[lit "variables" := Stats 1 2 50]> {[ lit "move_semantics" := Stats 1 1 100 ]})
  = join [LF]
      [ lit "# Rustlings Progress"; [];
        lit "- **Completed:** 2 / 3 (67%)"; [];
        lit "## By Topic"; [];
        lit "| Topic | Done | Total | % |";
        lit "|---|---:|---:|---:|";
        lit "| move_semantics | 1 | 1 | 100% |";
        lit "| variables | 1 | 2 | 50% |";
        [] ].
Proof. vm_compute. reflexivity. Qed.

(** ** What is rendered determines the numbers *)

Section Rendering.

Lemma lit_inj (s1 s2 : string) : lit s1 = lit s2 -> s1 = s2.
Proof.
  revert s2. induction s1 as [|a s1 IH]; intros [|b s2] H; try discriminate.
  - reflexivity.
  - rewrite !lit_String in H. injection H as Hab H.
    f_equal; [| by apply IH].
    by rewrite <- (ascii_N_embedding a), <- (ascii_N_embedding b), Hab.
Qed.

Lemma to_int_not_nil (n : Z) : Z.to_int n <> Decimal.Pos Decimal.Nil
                               /\ Z.to_int n <> Decimal.Neg Decimal.Nil.
Proof.
  split; intros E; pose proof (DecimalZ.of_to n) as H;
    rewrite E in H; cbn in H; subst n; discriminate.
Qed.

(** [str] of an integer is read back as that integer. *)
Lemma py_str_int_inj (n1 n2 : Z) : py_str_int n1 = py_str_int n2 -> n1 = n2.
Proof.
  unfold py_str_int. intros H. apply lit_inj in H.
  apply DecimalZ.to_int_inj.
  destruct (to_int_not_nil n1) as [H1 H1'], (to_int_not_nil n2) as [H2 H2'].
  pose proof (NilZero.isi _ H1 H1') as E1.
  pose proof (NilZero.isi _ H2 H2') as E2.
  rewrite H in E1. congruence.
Qed.

(** Two texts cut at the first occurrence of [c] agree part by part. *)
Lemma split_unique (c : N) (a1 a2 r1 r2 : str) :
  c ∉ a1 -> c ∉ a2 -> a1 ++ c :: r1 = a2 ++ c :: r2 -> a1 = a2 /\ r1 = r2.
Proof.
  revert a2. induction a1 as [|x a1 IH]; intros [|y a2] H1 H2 H; cbn [app] in H.
  - by injection H as ->.
  - injection H as -> _. exfalso. apply H2. left.
  - injection H as -> _. exfalso. apply H1. left.
  - injection H as -> H. apply not_elem_of_cons in H1 as [_ H1].
    apply not_elem_of_cons in H2 as [_ H2].
    destruct (IH a2 H1 H2 H) as [-> ->]. done.
Qed.

Lemma py_str_int_no (c : N) (n : Z) :
  c <> 45%N -> ~ (48 <= c <= 57)%N -> c ∉ py_str_int n.
Proof.
  intros H1 H2 Hin. pose proof (py_str_int_chars n) as H.
  rewrite Forall_forall in H. destruct (H c Hin); [done | lia].
Qed.

End Rendering.

(** X22: the README line tells the summaries apart: two summaries that
    differ in [done], [total] or [pct] are rendered as different lines. *)
Theorem readme_line_inj (s1 s2 : stats) :
  s1 <> s2 -> readme_line s1 <> readme_line s2.
Proof.
  intros Hne H. apply Hne. clear Hne.
  destruct s1 as [d1 t1 p1], s2 as [d2 t2 p2].
  unfold readme_line in H. cbn [done total pct] in H.
  repeat (apply app_inv_head in H).
  change (lit " / ") with (32 :: lit "/ ")%N in H.
  apply split_unique in H as [Hd H]; [| by apply py_str_int_no; lia..].
  apply app_inv_head in H.
  change (lit " completed (") with (32 :: lit "completed (")%N in H.
  apply split_unique in H as [Ht H]; [| by apply py_str_int_no; lia..].
  apply app_inv_head in H.
  change (lit "%)**") with (37 :: lit ")**")%N in H.
  apply split_unique in H as [Hp _]; [| by apply py_str_int_no; lia..].
  apply py_str_int_inj in Hd, Ht, Hp. by subst.
Qed.

Lemma readme_line_inj_witness :
  readme_line (Stats 1 3 33) <> readme_line (Stats 2 3 67).
Proof. apply (readme_line_inj (Stats 1 3 33) (Stats 2 3 67)). discriminate. Defined.

(** X23: the badge tells the percentages apart: two different percentages
    are rendered as different badges. *)
Theorem make_badge_svg_inj (pct1 pct2 : Z) :
  pct1 <> pct2 -> make_badge_svg pct1 <> make_badge_svg pct2.
Proof.
  intros Hne H. apply Hne. clear Hne.
  unfold make_badge_svg in H. cbv zeta in H.
  rewrite <- !app_assoc in H.
  repeat (apply app_inv_head in H).
  change (lit "%") with [37%N] in H. cbn [app] in H.
  apply split_unique in H as [Hp _]; [| by apply py_str_int_no; lia..].
  by apply py_str_int_inj.
Qed.

Lemma make_badge_svg_inj_witness : make_badge_svg 50 <> make_badge_svg 67.
Proof. apply (make_badge_svg_inj 50 67). lia. Defined.

Example make_badge_svg_first_line :
  startswith
    (lit "<svg xmlns=" ++ [DQ] ++ lit "http://www.w3.org/2000/svg" ++ [DQ]
     ++ lit " width=" ++ [DQ] ++ lit "118" ++ [DQ] ++ lit " height=" ++ [DQ]
     ++ lit "20" ++ [DQ] ++ lit " role=" ++ [DQ] ++ lit "img" ++ [DQ]
    ++ lit " aria-label=" ++ [DQ] ++ lit "rustlings: 67%" ++ [DQ] ++ lit ">" ++ [LF])
    (make_badge_svg 67) = true
  /\ endswith (lit ">67%</text>" ++ [LF] ++ lit "  </g>" ++ [LF] ++ lit "</svg>")
       (make_badge_svg 67) = true.
Proof. split; vm_compute; reflexivity. Qed.

Example fmt_1f_halves_examples :
  fmt_1f_halves 70 = lit "35.0" /\ fmt_1f_halves (2 * 70 + 48) = lit "94.0"
  /\ fmt_1f_halves 71 = lit "35.5".
Proof. repeat split. Qed.

(** ** Running again *)

(** X24: a run that writes files leaves a README which a later run treats
    like the one before it: the later run, whatever the state file and the
    exercises then are, prints and writes what it would have without the
    earlier run.  With the same state file and exercises, a second run
    changes nothing. *)
Theorem rerun_forgets_earlier_run
    (root : list str) (w : world) (sf : option str) (ed : option (list entry)) :
  main true root (World sf ed (main true root w).2)
  = main true root (World sf ed (readme w))
  /\ main true root
       (World (state_file w) (exer_dir w) (main true root w).2)
     = main true root w.
Proof.
  assert (forall sf' ed',
            main true root (World sf' ed' (main true root w).2)
            = main true root (World sf' ed' (readme w))) as H.
  { intros sf' ed'. unfold main. cbn [fst snd state_file exer_dir readme].
    f_equal. apply patch_readme_after. }
  split; [apply H |]. rewrite H. by destruct w.
Qed.
